(** * MolViewSpec annotation engine: a shallow embedding of
    [additions/annotation-prop.ts] and of the helpers of [utils.ts] it calls.

    JavaScript values are modelled as far as the code inspects them:
    parsed JSON as an inductive type, own properties of a value as an
    ordered member list, [undefined] as [None], a thrown exception as
    [Throw].  JSON numbers are restricted to integers.  An input that
    leaves the modelled fragment of JavaScript yields [Unmodelled]; so does
    a read that reaches a member inherited through the prototype chain,
    which is a function or a prototype object. *)

From Stdlib Require Import ZArith String Ascii List Bool Lia.
From stdpp Require Import base option list gmap strings pretty.

Local Open Scope string_scope.

(** ** Exceptions *)

Inductive JsError : Type :=
  | TypeError
  | Error (msg : string).

Inductive Result (A : Type) : Type :=
  | Ok (a : A)
  | Throw (e : JsError)
  | Unmodelled.
Arguments Ok {A} a.
Arguments Throw {A} e.
Arguments Unmodelled {A}.

#[global] Instance Result_ret : MRet Result := fun A a => Ok a.
#[global] Instance Result_bind : MBind Result := fun A B f m =>
  match m with
  | Ok a => f a
  | Throw e => Throw e
  | Unmodelled => Unmodelled
  end.
#[global] Instance Result_fmap : FMap Result := fun A B f m =>
  match m with
  | Ok a => Ok (f a)
  | Throw e => Throw e
  | Unmodelled => Unmodelled
  end.

(** [xs.map(f)] where [f] may throw: the first exception aborts the map. *)
Fixpoint mapR {A B} (f : A -> Result B) (xs : list A) : Result (list B) :=
  match xs with
  | [] => Ok []
  | x :: rest => y ← f x; ys ← mapR f rest; Ok (y :: ys)
  end.

(** ** Parsed JSON *)

#[warnings="-register-all"]
Inductive Json : Type :=
  | JNull
  | JBool (b : bool)
  | JNum (n : Z)
  | JStr (s : string)
  | JArr (items : list Json)
  | JObj (members : list (string * Json)).

(** The property key of a numeric index: [a[i]] reads the property named
    by the decimal form of [i]. *)
Definition index_key (i : Z) : string := pretty i.

(** Characters of a string as one-character strings, as [s[i]] gives them. *)
Fixpoint chars (s : string) : list Json :=
  match s with
  | EmptyString => []
  | String c rest => JStr (String c EmptyString) :: chars rest
  end.

(** Indexed own properties of an array or a string, in index order. *)
Definition indexed (items : list Json) : list (string * Json) :=
  imap (fun i v => (index_key (Z.of_nat i), v)) items.

(** First binding of [key] in a member list. *)
Fixpoint assoc {V} (key : string) (members : list (string * V)) : option V :=
  match members with
  | [] => None
  | (k, v) :: rest => if String.eqb k key then Some v else assoc key rest
  end.

(** Enumerable own properties, in [Object.keys] order.  [null] has none to
    give: converting it to an object throws. *)
Definition own_members (v : Json) : Result (list (string * Json)) :=
  match v with
  | JNull => Throw TypeError
  | JBool _ | JNum _ => Ok []
  | JStr s => Ok (indexed (chars s))
  | JArr items => Ok (indexed items)
  | JObj members => Ok members
  end.

(** [Object.keys(v)] *)
Definition Object_keys (v : Json) : Result (list string) :=
  fmap (M:=Result) (fun ms => ms.*1) (own_members v).

(** The non-enumerable own property [length] of arrays and strings. *)
Definition own_length (v : Json) : option Json :=
  match v with
  | JStr s => Some (JNum (Z.of_nat (String.length s)))
  | JArr items => Some (JNum (Z.of_nat (List.length items)))
  | _ => None
  end.

(** [v[key]]: own property read; [None] is [undefined]. *)
Definition js_get (v : Json) (key : string) : Result (option Json) :=
  ms ← own_members v;
  Ok (if String.eqb key "length"
      then match own_length v with
           | Some n => Some n
           | None => assoc key ms
           end
      else assoc key ms).

(** The names of the members of [Object.prototype], which every object
    inherits. *)
Definition Object_prototype : list string :=
  [ "constructor"; "hasOwnProperty"; "isPrototypeOf"; "propertyIsEnumerable";
    "toLocaleString"; "toString"; "valueOf"; "__proto__";
    "__defineGetter__"; "__defineSetter__";
    "__lookupGetter__"; "__lookupSetter__" ].

(** [v[key]] for a property name [key]: the own property, or else what the
    prototype chain gives.  The inherited members are functions and
    prototype objects, no JSON values: reading one is [Unmodelled].  An
    object inherits the members of [Object.prototype]; the members that
    arrays, strings, numbers and booleans inherit are not listed, and on
    these values every name that is no own property is [Unmodelled].  A
    name that is the decimal form of a number is inherited nowhere, so
    [js_get] is the read [v[i]] for a number [i]. *)
Definition js_read (v : Json) (key : string) : Result (option Json) :=
  o ← js_get v key;
  match o, v with
  | Some x, _ => Ok (Some x)
  | None, JObj _ =>
      if bool_decide (key ∈ Object_prototype) then Unmodelled else Ok None
  | None, _ => Unmodelled
  end.

(** [x ?? d]: [d] replaces [undefined] and [null]. *)
Definition nullish (x : option Json) (d : Json) : Json :=
  match x with
  | None | Some JNull => d
  | Some v => v
  end.

(** [x.length] where [x] may be [undefined]. *)
Definition js_length (x : option Json) : Result (option Json) :=
  match x with
  | None => Throw TypeError
  | Some v => js_get v "length"
  end.

(** [a !== b] on the values read through the keys [ka] and [kb] of one
    parsed document: primitives compare by value, arrays and objects by
    identity, and two distinct keys never hold the same array or object. *)
Definition strict_neq (ka kb : string) (a b : option Json) : bool :=
  match a, b with
  | None, None => false
  | Some JNull, Some JNull => false
  | Some (JBool x), Some (JBool y) => negb (Bool.eqb x y)
  | Some (JNum x), Some (JNum y) => negb (Z.eqb x y)
  | Some (JStr x), Some (JStr y) => negb (String.eqb x y)
  | Some (JArr _), Some (JArr _) | Some (JObj _), Some (JObj _) =>
      negb (String.eqb ka kb)
  | _, _ => true
  end.

(** ** utils.ts *)

(** [pickObjectKeys(obj, keys)].  [own key] is [Object.hasOwn(obj, key)]
    together with [obj[key]]: [Ok (Some v)] for an own property.  The keys
    are field names: [result[key] = obj[key]] adds the property, which it
    does for every key but [__proto__]. *)
Fixpoint pickObjectKeys_loop {V} (own : string -> Result (option V))
    (keys : list string) (result : gmap string V) : Result (gmap string V) :=
  match keys with
  | [] => Ok result
  | key :: rest =>
      o ← own key;
      pickObjectKeys_loop own rest
        (match o with
         | Some v => <[key:=v]> result
         | None => result
         end)
  end.

Definition pickObjectKeys {V} (own : string -> Result (option V))
    (keys : list string) : Result (gmap string V) :=
  pickObjectKeys_loop own keys ∅.

(** [extend(dst, src)]: the elements of [src] are written after [dst]. *)
Definition extend {A} (dst src : list A) : list A := dst ++ src.

(** [objectFromKeysAndValues(keys, values)]: the own properties of the
    object it builds; a value missing for a key is [undefined].  The
    assignment [obj[key] = value] adds or overwrites the property, except
    for the key [__proto__]: that assignment goes to the setter inherited
    from [Object.prototype] and adds no property. *)
Fixpoint objectFromKeysAndValues {V} (keys : list string) (values : list V)
    (obj : gmap string (option V)) : gmap string (option V) :=
  match keys with
  | [] => obj
  | k :: ks =>
      objectFromKeysAndValues ks (tail values)
        (if String.eqb k "__proto__" then obj else <[k:=head values]> obj)
  end.

(** ** Tabular data of the CIF reader (molstar's [mol-data/db] and
    [mol-io/reader/cif]), as far as the annotation code calls it *)

(** [Column.ValueKind] *)
Inductive ValueKind : Type := Present | NotPresent | Unknown.

#[global] Instance ValueKind_eq_dec : EqDecision ValueKind.
Proof. solve_decision. Defined.

(** A field of a CIF category: [field.valueKind(row)] and [field.str(row)],
    callable at any number. *)
Record CifField : Type := {
  field_valueKind : Z -> ValueKind;
  field_str : Z -> string;
}.

Record CifCategory : Type := {
  category_name : string;
  rowCount : nat;
  getField : string -> option CifField;
}.

(** [block.categories] is an object from category name to category; its
    members are listed in [Object.keys] order. *)
Record CifBlock : Type := {
  header : string;
  categories : list (string * CifCategory);
}.

Record CifFile : Type := {
  blocks : list CifBlock;
}.

(** A typed column of a [Table]: [column.valueKind(row)], [column.value(row)]. *)
Record Column : Type := {
  valueKind : Z -> ValueKind;
  value : Z -> Json;
}.

(** [Table<S>]: [_columns], [_rowCount], and [table[col]]. *)
Record Table : Type := {
  _columns : list string;
  _rowCount : nat;
  table_column : string -> Column;
}.

(** ** Data model of annotation-prop.ts *)

(** [AnnotationFormat] *)
Inductive AnnotationFormat : Type := json | cif | bcif.

#[global] Instance AnnotationFormat_eq_dec : EqDecision AnnotationFormat.
Proof. solve_decision. Defined.

(** The source of [AnnotationFormat]'s names. *)
Definition format_name (f : AnnotationFormat) : string :=
  match f with json => "json" | cif => "cif" | bcif => "bcif" end.

(** [AnnotationSchema] ([SchemaT] of param-types.ts) *)
Inductive AnnotationSchema : Type :=
  | sch_whole_structure | sch_entity | sch_chain | sch_auth_chain
  | sch_residue | sch_auth_residue | sch_residue_range
  | sch_auth_residue_range | sch_atom | sch_auth_atom | sch_all_atomic.

(** The [cifBlock] parameter: first block, 0-based index, or header. *)
Inductive CifBlockSpec : Type :=
  | block_first
  | block_index (i : Z)
  | block_header (h : string).

Record AnnotationSpec : Type := {
  spec_url : string;
  spec_format : AnnotationFormat;
  spec_schema : AnnotationSchema;
  spec_cifBlock : CifBlockSpec;
  spec_cifCategory : option string;
  spec_id : string;
}.

(** [AnnotationFile]: the tag is ['json'] or ['cif']. *)
Inductive AnnotationFile : Type :=
  | JsonFile (data : Json)
  | CifFileData (data : CifFile).

(** [AnnotationData] *)
Inductive AnnotationData : Type :=
  | JsonData (data : Json)
  | CifData (data : CifCategory).

(** [AnnotationRow]: an object from field name to value. *)
Abbreviation AnnotationRow := (gmap string Json).

(** ** Field access *)

Definition getValueFromJson (rowIndex : Z) (fieldName : string) (js : Json)
    : Result (option Json) :=
  match js with
  | JArr _ =>
      r ← js_get js (index_key rowIndex);
      let row := nullish r (JObj []) in
      js_read row fieldName
  | _ =>
      c ← js_read js fieldName;
      let column := nullish c (JArr []) in
      js_get column (index_key rowIndex)
  end.

Definition getValueFromCif (rowIndex : Z) (fieldName : string)
    (data : CifCategory) : option string :=
  match getField data fieldName with
  | None => None
  | Some column =>
      if decide (field_valueKind column rowIndex <> Present) then None
      else Some (field_str column rowIndex)
  end.

(** The [switch (this.data.format)] of [getValueForLocation]; a string
    read from CIF is the value [JStr]. *)
Definition getValue_switch (d : AnnotationData) (iRow : Z) (fieldName : string)
    : Result (option Json) :=
  match d with
  | JsonData js => getValueFromJson iRow fieldName js
  | CifData c => Ok (JStr <$> getValueFromCif iRow fieldName c)
  end.

(** ** Row parsing *)

(** [keys.some(pred)] where [pred] may throw; stops at the first hit. *)
Fixpoint someR {A} (pred : A -> Result bool) (xs : list A) : Result bool :=
  match xs with
  | [] => Ok false
  | x :: rest => b ← pred x; if (b : bool) then Ok true else someR pred rest
  end.

(** A column of an object-of-arrays document that is itself an object has
    whatever [length] and numbered members it declares; the model stops
    there. *)
Definition column_modelled (c : option Json) : bool :=
  match c with
  | Some (JObj _) => false
  | _ => true
  end.

(** The bound of [for (let i = 0; i < n; i++)]: no iteration when [n] is
    [undefined]. *)
Definition loop_bound (n : option Json) : nat :=
  match n with
  | Some (JNum z) => Z.to_nat z
  | _ => 0
  end.

(** The inner loop [for (const key of keys) item[key] = js[key][i]]. *)
Fixpoint build_item (js : Json) (keys : list string) (i : nat)
    (item : AnnotationRow) : Result AnnotationRow :=
  match keys with
  | [] => Ok item
  | key :: rest =>
      c ← js_get js key;
      match c with
      | None => Throw TypeError
      | Some column =>
          x ← js_get column (index_key (Z.of_nat i));
          match x with
          | None => Unmodelled
          | Some v => build_item js rest i (<[key:=v]> item)
          end
      end
  end.

Section Parsing.

(** [FieldsForSchemas] and [CIFAnnotationSchema] of [./schemas], and
    molstar's [toTable], are not part of these sources: the parsing
    functions take them as given.  [ColumnSchema] is the type of one
    column declaration. *)
Context {ColumnSchema : Type}.
Variable FieldsForSchemas : AnnotationSchema -> list string.
Variable CIFAnnotationSchema : gmap string ColumnSchema.
Variable toTable : gmap string ColumnSchema -> CifCategory -> Table.

Definition getRowsFromJson (js : Json) (schema : AnnotationSchema)
    : Result (list AnnotationRow) :=
  match js with
  | JArr items =>
      (* array of objects *)
      let wantedKeys := FieldsForSchemas schema in
      mapR (fun row => pickObjectKeys (js_get row) wantedKeys) items
  | _ =>
      (* object of arrays *)
      let wantedKeys := FieldsForSchemas schema in
      allKeys ← Object_keys js;
      let keys := filter (fun key => key ∈ wantedKeys) allKeys in
      match keys with
      | [] => Ok []
      | key0 :: _ =>
          c0 ← js_get js key0;
          n ← js_length c0;
          differ ← someR (fun key =>
                      c ← js_get js key;
                      if column_modelled c
                      then len ← js_length c; Ok (strict_neq key key0 len n)
                      else Unmodelled) keys;
          if (differ : bool)
          then Throw (Error "FormatError: arrays must have the same length.")
          else mapR (fun i => build_item js keys i ∅) (seq 0 (loop_bound n))
      end
  end.

(** The loop over [columns] that fills one row of [getRowsFromTable]. *)
Fixpoint table_row (table : Table) (columns : list string) (iRow : nat)
    (row : AnnotationRow) : AnnotationRow :=
  match columns with
  | [] => row
  | col :: rest =>
      let c := table_column table col in
      table_row table rest iRow
        (if decide (valueKind c (Z.of_nat iRow) = Present)
         then <[col := value c (Z.of_nat iRow)]> row
         else row)
  end.

Definition getRowsFromTable (table : Table) : list AnnotationRow :=
  map (fun iRow => table_row table (_columns table) iRow ∅)
      (seq 0 (_rowCount table)).

Definition getRowsFromCif (data : CifCategory) (schema : AnnotationSchema)
    : Result (list AnnotationRow) :=
  let rows := [] in
  cifSchema ← pickObjectKeys (fun key => Ok (CIFAnnotationSchema !! key))
                (FieldsForSchemas schema);
  let table := toTable cifSchema data in
  Ok (extend rows (getRowsFromTable table)).

End Parsing.

(** ** Asynchronous loading

    The asset manager and the two parsers are molstar's.  A task of the
    loader runs against the list of [resolve] requests issued so far; an
    exception ends the task, the requests stay issued. *)

Inductive DataType : Type := dt_string | dt_binary.

Inductive RawData : Type :=
  | RawText (s : string)
  | RawBytes (bytes : list Byte.byte).

(** [!rawData]: the empty string is falsy, a byte array never is. *)
Definition raw_falsy (d : RawData) : bool :=
  match d with
  | RawText EmptyString => true
  | _ => false
  end.

(** [CustomProperty.Context]: [assetManager.resolve(url, type)] with the
    [data] of its wrapper ([None] when there is none), [JSON.parse], and
    [CIF.parse] ([None] when [isError]). *)
Record Context : Type := {
  assetManager_resolve : string -> DataType -> Result (option RawData);
  JSON_parse : RawData -> Result Json;
  CIF_parse : RawData -> option CifFile;
}.

Definition Request : Type := string * DataType.

Definition Async (A : Type) : Type :=
  list Request -> Result A * list Request.

#[global] Instance Async_ret : MRet Async := fun A a issued => (Ok a, issued).
#[global] Instance Async_bind : MBind Async := fun A B f m issued =>
  match m issued with
  | (Ok a, issued') => f a issued'
  | (Throw e, issued') => (Throw e, issued')
  | (Unmodelled, issued') => (Unmodelled, issued')
  end.

Definition liftR {A} (r : Result A) : Async A := fun issued => (r, issued).

(** Issue one [resolve] request. *)
Definition resolve (ctx : Context) (u : string) (t : DataType)
    : Async (option RawData) :=
  fun issued => (assetManager_resolve ctx u t, (issued ++ [(u, t)])%list).

(** [AnnotationFormatTypes] *)
Definition AnnotationFormatTypes (f : AnnotationFormat) : DataType :=
  match f with
  | json => dt_string
  | cif => dt_string
  | bcif => dt_binary
  end.

(** [getFileFromSource(ctx, source)]; [source] is read through its [url]
    and [format]. *)
Definition getFileFromSource (ctx : Context) (source_url : string)
    (source_format : AnnotationFormat) : Async AnnotationFile :=
  let dataType := AnnotationFormatTypes source_format in
  dataWrapper ← resolve ctx source_url dataType;
  match dataWrapper with
  | None => liftR (Throw (Error "Missing data"))
  | Some rawData =>
      if raw_falsy rawData then liftR (Throw (Error "Missing data"))
      else
        match source_format with
        | json =>
            js ← liftR (JSON_parse ctx rawData);
            mret (JsonFile js)
        | cif | bcif =>
            match CIF_parse ctx rawData with
            | None =>
                liftR (Throw (Error ("Failed to parse " ++
                                     format_name source_format)))
            | Some parsed => mret (CifFileData parsed)
            end
        end
  end.

(** A promise: the position of its creation among the promises of the
    batch, which is its identity, and the outcome it settles to. *)
Record Promise (A : Type) : Type := {
  promise_id : nat;
  settled : Result A;
}.
Arguments promise_id {A} _.
Arguments settled {A} _.

(** Calling an async function without awaiting it: the request goes out
    at once, the caller holds the promise and goes on. *)
Definition start {A} (pid : nat) (task : Async A) : Async (Promise A) :=
  fun issued =>
    let '(r, issued') := task issued in
    (Ok {| promise_id := pid; settled := r |}, issued').

(** [obj[key] = v] on an object given by its members in insertion order,
    for a key other than [__proto__]. *)
Fixpoint obj_set {V} (key : string) (v : V) (members : list (string * V))
    : list (string * V) :=
  match members with
  | [] => [(key, v)]
  | (k, x) :: rest =>
      if String.eqb k key then (k, v) :: rest
      else (k, x) :: obj_set key v rest
  end.

(** [Promise.all(promises)]: all values in order, or a rejection.  Which
    rejection comes first is a matter of timing; the model reports the
    first in list order. *)
Fixpoint Promise_all {A} (promises : list (Promise A)) : Result (list A) :=
  match promises with
  | [] => Ok []
  | p :: rest =>
      match settled p with
      | Ok a => fmap (M:=Result) (cons a) (Promise_all rest)
      | Throw e => Throw e
      | Unmodelled => Unmodelled
      end
  end.

(** [promiseAllObj(promisesObj)] *)
Definition promiseAllObj {A} (promisesObj : list (string * Promise A))
    : Result (gmap string (option A)) :=
  let keys := promisesObj.*1 in
  let promises := promisesObj.*2 in
  results ← Promise_all promises;
  Ok (objectFromKeysAndValues keys results ∅).

(** The key [`${src.format}:${src.url}`]. *)
Definition source_key (source_url : string) (source_format : AnnotationFormat)
    : string :=
  format_name source_format ++ ":" ++ source_url.

(** The loop of [getFileFromSources] over [sources]. *)
Fixpoint install_promises (ctx : Context) (sources : list AnnotationSpec)
    (promises : list (string * Promise AnnotationFile))
    : Async (list (string * Promise AnnotationFile)) :=
  match sources with
  | [] => mret promises
  | src :: rest =>
      let key := source_key (spec_url src) (spec_format src) in
      match assoc key promises with
      | Some _ => install_promises ctx rest promises
      | None =>
          p ← start (List.length promises)
                (getFileFromSource ctx (spec_url src) (spec_format src));
          install_promises ctx rest (obj_set key p promises)
      end
  end.

Definition getFileFromSources (ctx : Context) (sources : list AnnotationSpec)
    : Async (list (option AnnotationFile)) :=
  promises ← install_promises ctx sources [];
  data ← liftR (promiseAllObj promises);
  mret (map (fun src =>
               mjoin (data !! source_key (spec_url src) (spec_format src)))
            sources).

(** ** Structures *)

(** Modelled from the spec: molstar's [Model] is not part of these sources.
    It is "an immutable structural hierarchy with a fixed atom count;
    identified by a stable identity token", exposing per atom the entity,
    chain, residue and atom identifiers in label and author numbering,
    insertion code, atom name, symbol and serial.  The atom index is the
    position in [atoms]. *)
Record Atom : Type := {
  label_entity_id : string;
  label_asym_id : string;
  auth_asym_id : string;
  label_seq_id : Z;
  auth_seq_id : Z;
  pdbx_PDB_ins_code : string;
  label_atom_id : string;
  auth_atom_id : string;
  type_symbol : string;
  atom_id : Z;
}.

(** Modelled from the spec: molstar's [Model], see [Atom]; [model.id] is
    the identity token, the key of the cache. *)
Record Model : Type := {
  model_id : string;
  atoms : list Atom;
}.

(** [model.atomicHierarchy.atoms._rowCount] *)
Definition atoms_rowCount (model : Model) : nat := List.length (atoms model).

(** [StructureElement.Location]: [loc.unit.model] and [loc.element]; the
    element is an atom index of the model. *)
Record Location : Type := {
  loc_model : Model;
  loc_element : nat;
}.

(** Modelled from the spec: [AtomRanges] and [rangesForeach] of
    [./helpers/atom-ranges] are not part of these sources.  The Range
    Matcher produces "an ordered, non-overlapping sequence of
    [firstAtomIndex, lastAtomIndexExclusive) ranges"; [rangesForeach]
    calls its function on each range in that order. *)
Definition AtomRanges : Type := list (Z * Z).

(** Modelled from the spec: [rangesForeach(ranges, func)] of
    [./helpers/atom-ranges], see [AtomRanges]: [func(from, to)] on each
    range, first to last. *)
Definition rangesForeach {S} (ranges : AtomRanges) (func : Z -> Z -> S -> S)
    (s : S) : S :=
  foldl (fun acc r => func r.1 r.2 acc) s ranges.

(** ** Arrays of numbers *)

(** [arr[i]] for a number [i]; [None] out of range. *)
Definition array_at {A} (arr : list A) (i : Z) : option A :=
  if (0 <=? i)%Z then arr !! Z.to_nat i else None.

(** The bounds [Array.prototype.fill] computes from an argument: a negative
    one counts from the end, and both are clamped to the array. *)
Definition relative_index (len i : Z) : Z :=
  if (i <? 0)%Z then Z.max (len + i) 0 else Z.min i len.

(** [arr.fill(v, from, to)] *)
Definition fill (arr : list Z) (v from to : Z) : list Z :=
  let len := Z.of_nat (List.length arr) in
  let k := relative_index len from in
  let final := relative_index len to in
  imap (fun j x =>
          if ((k <=? Z.of_nat j) && (Z.of_nat j <? final))%Z then v else x)
       arr.

(** ** The class [Annotation] *)

(** An [Annotation] object: its two public fields and its private map
    [indexedModels], whose values are references to arrays of numbers. *)
Record Annotation : Type := {
  data : AnnotationData;
  schema : AnnotationSchema;
  indexedModels : gmap string nat;
}.

(** [new Annotation(data, schema)] *)
Definition new_Annotation (d : AnnotationData) (s : AnnotationSchema)
    : Annotation :=
  {| data := d; schema := s; indexedModels := ∅ |}.

(** The arrays of numbers allocated so far; a reference is a position. *)
Definition Heap : Type := list (list Z).

(** The block selection of [fromSpec], on a file with first block [b0]. *)
Definition select_block (blockSpec : CifBlockSpec) (file : CifFile)
    (b0 : CifBlock) : Result CifBlock :=
  match blockSpec with
  | block_header h =>
      match find (fun b => String.eqb (header b) h) (blocks file) with
      | None => Throw (Error ("CIF block with header " ++ h ++ " not found"))
      | Some foundBlock => Ok foundBlock
      end
  | block_index i =>
      match array_at (blocks file) i with
      | None =>
          Throw (Error ("CIF block with index " ++ pretty i ++ " not found"))
      | Some block => Ok block
      end
  | block_first => Ok b0
  end.

(** The category selection of [fromSpec]; the empty name is falsy. *)
Definition select_category (cifCategory : option string) (block : CifBlock)
    : Result CifCategory :=
  let categoryName :=
    match cifCategory with
    | Some name => Some name
    | None => head (categories block).*1
    end in
  match categoryName with
  | None | Some EmptyString =>
      Throw (Error "There are no categories in CIF block")
  | Some name =>
      match assoc name (categories block) with
      | None => Throw (Error ("CIF category " ++ name ++ " not found"))
      | Some category => Ok category
      end
  end.

(** The [switch (file.format)] of [fromSpec]. *)
Definition fromSpec_switch (spec : AnnotationSpec) (file : AnnotationFile)
    : Result Annotation :=
  match file with
  | JsonFile js => Ok (new_Annotation (JsonData js) (spec_schema spec))
  | CifFileData f =>
      match blocks f with
      | [] => Throw (Error "No block in CIF")
      | b0 :: _ =>
          block ← select_block (spec_cifBlock spec) f b0;
          category ← select_category (spec_cifCategory spec) block;
          Ok (new_Annotation (CifData category) (spec_schema spec))
      end
  end.

(** [Annotation.fromSpec(ctx, spec, file?)] *)
Definition fromSpec (ctx : Context) (spec : AnnotationSpec)
    (file : option AnnotationFile) : Async Annotation :=
  file ← match file with
         | Some f => mret f
         | None => getFileFromSource ctx (spec_url spec) (spec_format spec)
         end;
  liftR (fromSpec_switch spec file).

(** ** The class [Annotations] *)

(** The object [dict] of an [Annotations], made by [{}]: its own
    properties, and the Annotation that has taken the place of
    [Object.prototype] as its prototype, if one has. *)
Record Dict : Type := {
  dict_own : list (string * Annotation);
  dict_proto : option Annotation;
}.

(** [{}] *)
Definition empty_dict : Dict := {| dict_own := []; dict_proto := None |}.

(** [dict[id] = a] for an Annotation [a]: the property is added or
    overwritten, except under the id [__proto__]: that assignment goes to
    the setter inherited from [Object.prototype], which makes [a] the
    prototype of [dict] and adds no property. *)
Definition dict_set (id : string) (a : Annotation) (dict : Dict) : Dict :=
  if String.eqb id "__proto__"
  then {| dict_own := dict_own dict; dict_proto := Some a |}
  else {| dict_own := obj_set id a (dict_own dict);
          dict_proto := dict_proto dict |}.

(** The loop of [Annotations.fromSpecs]: [i] runs over [specs], [files] is
    [data] from position [i] on. *)
Fixpoint fromSpecs_loop (ctx : Context) (specs : list AnnotationSpec)
    (files : list (option AnnotationFile)) (dict : Dict) : Async Dict :=
  match specs with
  | [] => mret dict
  | spec :: rest =>
      a ← fromSpec ctx spec (mjoin (head files));
      fromSpecs_loop ctx rest (tail files) (dict_set (spec_id spec) a dict)
  end.

(** [Annotations.fromSpecs(ctx, specs)]; the result is the private [dict],
    own properties in insertion order (ids that are array indices come
    first in JavaScript; no statement below depends on the order). *)
Definition fromSpecs (ctx : Context) (specs : list AnnotationSpec)
    : Async Dict :=
  files ← getFileFromSources ctx specs;
  fromSpecs_loop ctx specs files empty_dict.



(** ** Row resolution *)

Section Resolver.

Context {ColumnSchema : Type}.
Variable FieldsForSchemas : AnnotationSchema -> list string.
Variable CIFAnnotationSchema : gmap string ColumnSchema.
Variable toTable : gmap string ColumnSchema -> CifCategory -> Table.

(** [createIndicesAndSortings] of [./helpers/indexing], and
    [getAtomRangesForRow] and [atomQualifies] of [./helpers/selections],
    are not part of these sources: the resolver takes them as given,
    with the arguments its calls pass. *)
Context {Indices : Type}.
Variable createIndicesAndSortings : Model -> Indices.
Variable getAtomRangesForRow : Model -> AnnotationRow -> Indices -> AtomRanges.
Variable atomQualifies : Model -> nat -> AnnotationRow -> bool.

(** [this.getRows()] *)
Definition getRows (this : Annotation) : Result (list AnnotationRow) :=
  match data this with
  | JsonData js => getRowsFromJson FieldsForSchemas js (schema this)
  | CifData c =>
      getRowsFromCif FieldsForSchemas CIFAnnotationSchema toTable c
        (schema this)
  end.

(** The loop of [getRowForEachAtom] from row [i] on; [rows] are the rows
    from [i] on. *)
Fixpoint fill_rows (model : Model) (indices : Indices)
    (rows : list AnnotationRow) (i : Z) (result : list Z) : list Z :=
  match rows with
  | [] => result
  | row :: rest =>
      let atomRanges := getAtomRangesForRow model row indices in
      fill_rows model indices rest (i + 1)
        (rangesForeach atomRanges (fun from to acc => fill acc i from to)
           result)
  end.

(** [this.getRowForEachAtom(model)].  The result array is allocated
    before the rows are parsed; the function returns its reference. *)
Definition getRowForEachAtom (this : Annotation) (model : Model)
    (heap : Heap) : Result nat * Heap :=
  let indices := createIndicesAndSortings model in
  let nAtoms := atoms_rowCount model in
  let result := List.length heap in
  let fresh := replicate nAtoms (-1)%Z in
  match getRows this with
  | Ok rows =>
      (Ok result, (heap ++ [fill_rows model indices rows 0 fresh])%list)
  | Throw e => (Throw e, (heap ++ [fresh])%list)
  | Unmodelled => (Unmodelled, (heap ++ [fresh])%list)
  end.

(** [this.getIndexedModel(model)]: the reference of the cached array,
    the object after the call, and the heap after the call. *)
Definition getIndexedModel (this : Annotation) (model : Model)
    (heap : Heap) : Result nat * Annotation * Heap :=
  let key := model_id model in
  let '(computed, this', heap') :=
    match indexedModels this !! key with
    | Some _ => (Ok tt, this, heap)
    | None =>
        match getRowForEachAtom this model heap with
        | (Ok result, heap') =>
            (Ok tt,
             {| data := data this; schema := schema this;
                indexedModels := <[key := result]> (indexedModels this) |},
             heap')
        | (Throw e, heap') => (Throw e, this, heap')
        | (Unmodelled, heap') => (Unmodelled, this, heap')
        end
    end in
  match computed with
  | Ok _ =>
      match indexedModels this' !! key with
      | Some ref => (Ok ref, this', heap')
      | None => (Unmodelled, this', heap')
      end
  | Throw e => (Throw e, this', heap')
  | Unmodelled => (Unmodelled, this', heap')
  end.

(** [this.getValueForLocation(loc, fieldName)] *)
Definition getValueForLocation (this : Annotation) (loc : Location)
    (fieldName : string) (heap : Heap)
    : Result (option Json) * Annotation * Heap :=
  match getIndexedModel this (loc_model loc) heap with
  | (Ok ref, this', heap') =>
      match heap' !! ref ≫= (fun indexedModel => indexedModel !! loc_element loc) with
      | None => (Unmodelled, this', heap')
      | Some iRow => (getValue_switch (data this) iRow fieldName, this', heap')
      end
  | (Throw e, this', heap') => (Throw e, this', heap')
  | (Unmodelled, this', heap') => (Unmodelled, this', heap')
  end.

(** [this.getAnnotationForLocation_Reference(loc)] *)
Definition getAnnotationForLocation_Reference (this : Annotation)
    (loc : Location) : Result (option AnnotationRow) :=
  let model := loc_model loc in
  let iAtom := loc_element loc in
  rows ← getRows this;
  Ok (foldl (fun result row =>
               if atomQualifies model iAtom row then Some row else result)
        None rows).

(** The object and the heap after the queries [getIndexedModel(m)] for
    the models [m] of [models], in that order, whatever they return. *)
Definition after_queries (models : list Model) (st : Annotation * Heap)
    : Annotation * Heap :=
  foldl (fun st m =>
           let '(_, this', heap') := getIndexedModel st.1 m st.2 in
           (this', heap'))
    st models.

End Resolver.

(** What the promise of [getFileFromSource(ctx, source)] settles to; it
    does not depend on the requests issued before. *)
Definition file_of_source (ctx : Context) (source : string * AnnotationFormat)
    : Result AnnotationFile :=
  (getFileFromSource ctx source.1 source.2 []).1.

(** The [resolve] request [getFileFromSource] issues for a source. *)
Definition request_of (source : string * AnnotationFormat) : Request :=
  (source.1, AnnotationFormatTypes source.2).

(** The (url, format) pairs of [sources] not yet in [seen], each once, in
    the order of their first occurrence, after [seen]. *)
Fixpoint add_distinct (sources : list AnnotationSpec)
    (seen : list (string * AnnotationFormat))
    : list (string * AnnotationFormat) :=
  match sources with
  | [] => seen
  | src :: rest =>
      let s := (spec_url src, spec_format src) in
      add_distinct rest (if decide (s ∈ seen) then seen else (seen ++ [s])%list)
  end.

(** The distinct (url, format) pairs of [sources]. *)
Definition distinct_sources (sources : list AnnotationSpec)
    : list (string * AnnotationFormat) :=
  add_distinct sources [].

(** The object [promises] once the sources [new] have been requested in
    that order, the first of them as promise number [k]. *)
Fixpoint promise_table (ctx : Context) (k : nat)
    (new : list (string * AnnotationFormat))
    : list (string * Promise AnnotationFile) :=
  match new with
  | [] => []
  | s :: rest =>
      (source_key s.1 s.2, {| promise_id := k; settled := file_of_source ctx s |})
      :: promise_table ctx (S k) rest
  end.

(** The block a spec asks for, in the words of the spec: "by header
    string, by 0-based index, or default first block". *)
Definition selected_block (blockSpec : CifBlockSpec) (file : CifFile)
    : option CifBlock :=
  match blockSpec with
  | block_header h =>
      head (filter (fun b => header b = h) (blocks file))
  | block_index i => array_at (blocks file) i
  | block_first => head (blocks file)
  end.

(** The category a spec asks for, in the words of the spec: "explicit
    name, or the block's first category if unspecified". *)
Definition selected_category (cifCategory : option string) (block : CifBlock)
    : option CifCategory :=
  match cifCategory with
  | Some name => assoc name (categories block)
  | None => head (categories block).*2
  end.

(** Category names are not empty. *)
Definition categories_named (file : CifFile) : Prop :=
  Forall (fun b => Forall (fun c => c.1 <> "") (categories b)) (blocks file).


(** ** Notions the statements use *)

(** Atom [i] lies in one of the ranges. *)
Definition covers (ranges : AtomRanges) (i : nat) : bool :=
  existsb (fun r => (r.1 <=? Z.of_nat i)%Z && (Z.of_nat i <? r.2)%Z) ranges.

(** Range bounds are atom indices: none is negative. *)
Definition ranges_wf (ranges : AtomRanges) : Prop :=
  Forall (fun r => (0 <= r.1)%Z /\ (0 <= r.2)%Z) ranges.

(** The position of the last element satisfying [p]. *)
Fixpoint last_match {A} (p : A -> bool) (xs : list A) : option nat :=
  match xs with
  | [] => None
  | x :: rest =>
      match last_match p rest with
      | Some k => Some (S k)
      | None => if p x then Some 0 else None
      end
  end.

(** ** The selection helpers, from the spec *)

(** A selector field holding a string: absent, it admits every atom. *)
Definition admits_str (row : AnnotationRow) (field : string) (v : string)
    : bool :=
  match row !! field with
  | None => true
  | Some (JStr s) => String.eqb s v
  | Some _ => false
  end.

(** A selector field holding a number, tested by [p]. *)
Definition admits_num (row : AnnotationRow) (field : string) (p : Z -> bool)
    : bool :=
  match row !! field with
  | None => true
  | Some (JNum n) => p n
  | Some _ => false
  end.

(** Modelled from the spec: [atomQualifies] of [./helpers/selections] is
    not part of these sources.  "Fields are optional; a present field
    constrains matching atoms, an absent field matches all"; "every row
    field that is present constrains independently (logical AND across
    entity/chain/residue/atom-level fields simultaneously)"; a residue
    range is "[begin, end] inclusive in the specified numbering; if begin
    or end is absent, treat as unbounded on that side".  The selector
    fields are those of [ComponentExpression] in param-types.ts. *)
Definition spec_atomQualifies (model : Model) (iAtom : nat)
    (row : AnnotationRow) : bool :=
  match atoms model !! iAtom with
  | None => false
  | Some a =>
      admits_str row "label_entity_id" (label_entity_id a)
      && admits_str row "label_asym_id" (label_asym_id a)
      && admits_str row "auth_asym_id" (auth_asym_id a)
      && admits_num row "label_seq_id" (Z.eqb (label_seq_id a))
      && admits_num row "auth_seq_id" (Z.eqb (auth_seq_id a))
      && admits_str row "pdbx_PDB_ins_code" (pdbx_PDB_ins_code a)
      && admits_num row "beg_label_seq_id" (fun b => (b <=? label_seq_id a)%Z)
      && admits_num row "end_label_seq_id" (fun e => (label_seq_id a <=? e)%Z)
      && admits_num row "beg_auth_seq_id" (fun b => (b <=? auth_seq_id a)%Z)
      && admits_num row "end_auth_seq_id" (fun e => (auth_seq_id a <=? e)%Z)
      && admits_str row "label_atom_id" (label_atom_id a)
      && admits_str row "auth_atom_id" (auth_atom_id a)
      && admits_str row "type_symbol" (type_symbol a)
      && admits_num row "atom_id" (Z.eqb (atom_id a))
      && admits_num row "atom_index" (Z.eqb (Z.of_nat iAtom))
  end.

(** Maximal runs of [true] in [flags], as ranges starting at atom [i];
    [start] is the first atom of the run in progress. *)
Fixpoint runs (flags : list bool) (i : Z) (start : option Z) : AtomRanges :=
  match flags with
  | [] =>
      match start with
      | Some s => [(s, i)]
      | None => []
      end
  | true :: rest => runs rest (i + 1) (Some (default i start))
  | false :: rest =>
      match start with
      | Some s => (s, i) :: runs rest (i + 1) None
      | None => runs rest (i + 1) None
      end
  end.

(** Modelled from the spec: [getAtomRangesForRow] of [./helpers/selections]
    is not part of these sources.  It produces "an ordered, non-overlapping
    sequence of [firstAtomIndex, lastAtomIndexExclusive) ranges that the
    row selects"; it receives what the call in [getRowForEachAtom] passes,
    the model, the row and the indices, so the atoms a row selects are
    those [spec_atomQualifies] admits. *)
Definition spec_getAtomRangesForRow (model : Model) (row : AnnotationRow)
    (indices : unit) : AtomRanges :=
  runs (map (fun iAtom => spec_atomQualifies model iAtom row)
          (seq 0 (atoms_rowCount model))) 0 None.

(** Modelled from the spec: [createIndicesAndSortings] of
    [./helpers/indexing] is not part of these sources; it "must handle
    models with zero atoms (return an empty index, never fail)".  The
    helpers above read the model itself, so the index carries nothing. *)
Definition spec_createIndicesAndSortings (model : Model) : unit := tt.

(** Modelled from the spec: [FieldsForSchemas] of [./schemas] is not part
    of these sources.  Each granularity keeps the selector fields its
    matching rule names; [all-atomic] keeps all of them. *)
Definition spec_FieldsForSchemas (s : AnnotationSchema) : list string :=
  match s with
  | sch_whole_structure => []
  | sch_entity => ["label_entity_id"]
  | sch_chain => ["label_entity_id"; "label_asym_id"]
  | sch_auth_chain => ["auth_asym_id"]
  | sch_residue => ["label_entity_id"; "label_asym_id"; "label_seq_id"]
  | sch_auth_residue => ["auth_asym_id"; "auth_seq_id"; "pdbx_PDB_ins_code"]
  | sch_residue_range =>
      ["label_entity_id"; "label_asym_id";
       "beg_label_seq_id"; "end_label_seq_id"]
  | sch_auth_residue_range =>
      ["auth_asym_id"; "beg_auth_seq_id"; "end_auth_seq_id"]
  | sch_atom =>
      ["label_entity_id"; "label_asym_id"; "label_seq_id";
       "label_atom_id"; "type_symbol"; "atom_id"; "atom_index"]
  | sch_auth_atom =>
      ["auth_asym_id"; "auth_seq_id"; "pdbx_PDB_ins_code";
       "auth_atom_id"; "type_symbol"; "atom_id"; "atom_index"]
  | sch_all_atomic =>
      ["label_entity_id"; "label_asym_id"; "auth_asym_id";
       "label_seq_id"; "auth_seq_id"; "pdbx_PDB_ins_code";
       "beg_label_seq_id"; "end_label_seq_id";
       "beg_auth_seq_id"; "end_auth_seq_id";
       "label_atom_id"; "auth_atom_id"; "type_symbol";
       "atom_id"; "atom_index"]
  end.

(** ** Sample data *)

Module Sample.

Definition residue (seq_id : Z) (serial : Z) : Atom :=
  {| label_entity_id := "1"; label_asym_id := "A"; auth_asym_id := "A";
     label_seq_id := seq_id; auth_seq_id := seq_id;
     pdbx_PDB_ins_code := ""; label_atom_id := "CA"; auth_atom_id := "CA";
     type_symbol := "C"; atom_id := serial |}.

(** Chain A with one atom in each of the residues 12, 15 and 25. *)
Definition model : Model :=
  {| model_id := "m1"; atoms := [residue 12 1; residue 15 2; residue 25 3] |}.

Definition one_atom : Model :=
  {| model_id := "m0"; atoms := [residue 1 1] |}.

(** The source of the end-to-end example of the spec. *)
Definition ranges_json : Json :=
  JArr [ JObj [("label_asym_id", JStr "A"); ("beg_label_seq_id", JNum 10);
               ("end_label_seq_id", JNum 20); ("color", JStr "red")];
         JObj [("label_asym_id", JStr "A"); ("beg_label_seq_id", JNum 15);
               ("end_label_seq_id", JNum 15); ("color", JStr "blue")] ].

Definition ranges_annotation : Annotation :=
  new_Annotation (JsonData ranges_json) sch_residue_range.

(** The same rows as an object of arrays. *)
Definition columns_json : Json :=
  JObj [ ("label_asym_id", JArr [JStr "A"; JStr "A"]);
         ("beg_label_seq_id", JArr [JNum 10; JNum 15]);
         ("end_label_seq_id", JArr [JNum 20; JNum 15]);
         ("color", JArr [JStr "red"; JStr "blue"]) ].

(** One row without any field. *)
Definition empty_row_json : Json := JArr [JObj []].

(** No CIF column is declared, and [toTable] gives the empty table. *)
Definition no_columns : gmap string unit := ∅.
Definition no_table (s : gmap string unit) (c : CifCategory) : Table :=
  {| _columns := []; _rowCount := 0;
     table_column := fun _ =>
       {| valueKind := fun _ => NotPresent; value := fun _ => JNull |} |}.

(** Columns of different lengths. *)
Definition mismatched_json : Json :=
  JObj [ ("label_asym_id", JArr [JStr "A"; JStr "A"]);
         ("beg_label_seq_id", JArr [JNum 10]) ].

(** A CIF field with a value in every row but row 1, which holds [.]. *)
Definition dotted_field (text : string) : CifField :=
  {| field_valueKind := fun i => if (i =? 1)%Z then NotPresent else Present;
     field_str := fun i => if (i =? 1)%Z then "" else text |}.

Definition category_a : CifCategory :=
  {| category_name := "a"; rowCount := 2;
     getField := fun name =>
       if String.eqb name "color" then Some (dotted_field "red") else None |}.

Definition category_b : CifCategory :=
  {| category_name := "b"; rowCount := 0; getField := fun _ => None |}.

(** One block with the categories a and b, in that order. *)
Definition cif_file : CifFile :=
  {| blocks := [ {| header := "annotations";
                    categories := [("a", category_a); ("b", category_b)] |} ] |}.

(** Assets are served under their url as text; three JSON documents and
    one CIF file parse. *)
Definition ctx : Context :=
  {| assetManager_resolve := fun u t =>
       match t with
       | dt_string => Ok (Some (RawText u))
       | dt_binary => Ok (Some (RawBytes []))
       end;
     JSON_parse := fun raw =>
       match raw with
       | RawText "ranges.json" => Ok ranges_json
       | RawText "columns.json" => Ok columns_json
       | RawText "mismatched.json" => Ok mismatched_json
       | _ => Throw (Error "SyntaxError")
       end;
     CIF_parse := fun raw =>
       match raw with
       | RawText "annotations.cif" => Some cif_file
       | _ => None
       end |}.

Definition json_spec (u : string) (s : AnnotationSchema) (i : string)
    : AnnotationSpec :=
  {| spec_url := u; spec_format := json; spec_schema := s;
     spec_cifBlock := block_first; spec_cifCategory := None; spec_id := i |}.

End Sample.

(** ** More of utils.ts *)

(** [omitObjectKeys(obj, omitKeys)] on an object given by its own
    properties: the copy [{ ...obj }] loses each key in turn. *)
Definition omitObjectKeys {V} (obj : gmap string V) (omitKeys : list string)
    : gmap string V :=
  foldl (fun result key => delete key result) obj omitKeys.

(** [Number.isSafeInteger(z)]: between -(2^53 - 1) and 2^53 - 1.  A number
    holds such an integer exactly, and sums of integers that stay in this
    range are exact. *)
Definition isSafeInteger (z : Z) : bool :=
  (-9007199254740991 <=? z)%Z && (z <=? 9007199254740991)%Z.

(** The exception of [Array(length)] for a length from 2^32 on, a
    [RangeError]. *)
Definition RangeError : JsError := Error "RangeError: Invalid array length".

(** [range(start, end?)] on safe integers; other numbers are not modelled.
    The difference [end - start] rounds when it exceeds 2^53, but to no
    number below 2^32, so the test of [Array(length)] is the one on the
    exact difference; when it passes, every [start + i] lies between
    [start] and [end] and is exact. *)
Definition range (start : Z) (end_ : option Z) : Result (list Z) :=
  let '(start, end_) :=
    match end_ with
    | None => (0%Z, start)
    | Some e => (start, e)
    end in
  if negb (isSafeInteger start && isSafeInteger end_) then Unmodelled
  else
    let length := Z.max (end_ - start) 0 in
    if (4294967296 <=? length)%Z then Throw RangeError
    else Ok (map (fun i => (start + Z.of_nat i)%Z) (seq 0 (Z.to_nat length))).

(** Arrays in memory: a reference is a position, and a slot of an array
    holds a value or nothing, which reads as [undefined]. *)
Abbreviation Arrays A := (list (list (option A))).

(** [arr[i]] through the reference of [arr]. *)
Definition read_slot {A} (mem : Arrays A) (ref i : nat) : option A :=
  mem !! ref ≫= (fun arr => mjoin (arr !! i)).

(** [arr[i] = x] through the reference of [arr], for a slot of the array. *)
Definition write_slot {A} (mem : Arrays A) (ref i : nat) (x : option A)
    : Arrays A :=
  alter (fun arr => <[i := x]> arr) ref mem.

(** The loop of [extend], [dst[offset + i] = src[i]], from [i] on with
    [count] iterations to go. *)
Fixpoint extend_copy {A} (dst src offset i count : nat) (mem : Arrays A)
    : Arrays A :=
  match count with
  | 0 => mem
  | S count' =>
      extend_copy dst src offset (S i) count'
        (write_slot mem dst (offset + i) (read_slot mem src i))
  end.

(** [extend(dst, src)] on two references, which may be one and the same
    array: the lengths are read first, then [dst.length += nCopy] adds
    empty slots, then the loop copies. *)
Definition extend_refs {A} (dst src : nat) (mem : Arrays A) : Arrays A :=
  let offset := List.length (default [] (mem !! dst)) in
  let nCopy := List.length (default [] (mem !! src)) in
  let mem := alter (fun arr => arr ++ replicate nCopy None)%list dst mem in
  extend_copy dst src offset 0 nCopy mem.

(** [array.findIndex(p)]; [None] stands for -1. *)
Fixpoint findIndex {A} (p : A -> bool) (array : list A) : option nat :=
  match array with
  | [] => None
  | x :: rest => if p x then Some 0 else S <$> findIndex p rest
  end.

(** The loop [while (stop < n && whilePredicate(array[stop])) stop++], cut
    after [fuel] steps. *)
Fixpoint advance {A} (whilePredicate : A -> bool) (array : list A)
    (fuel stop : nat) : nat :=
  match fuel with
  | 0 => stop
  | S fuel' =>
      match array !! stop with
      | Some x =>
          if whilePredicate x
          then advance whilePredicate array fuel' (S stop)
          else stop
      | None => stop
      end
  end.

(** [array.slice(start, stop)] for two indices. *)
Definition slice {A} (array : list A) (start stop : nat) : list A :=
  take (stop - start) (drop start array).

(** [takeFromWhile(array, fromPredicate, whilePredicate)]; the loop makes
    at most [n] steps. *)
Definition takeFromWhile {A} (array : list A) (fromPredicate : A -> bool)
    (whilePredicate : A -> bool) : list A :=
  match findIndex fromPredicate array with
  | None => []
  | Some start =>
      let n := List.length array in
      let stop := advance whilePredicate array n start in
      slice array start stop
  end.

(** [takeWhile(array, whilePredicate, fromIndex)], [fromIndex] an index. *)
Definition takeWhile {A} (array : list A) (whilePredicate : A -> bool)
    (fromIndex : nat) : list A :=
  let n := List.length array in
  let stop := advance whilePredicate array n fromIndex in
  slice array fromIndex stop.

(** The loop of [filterInPlace] from [iSrc] on, with [count] iterations to
    go: the array and [iDest] after it. *)
Fixpoint filterInPlace_loop {A} (predicate : A -> bool)
    (count iSrc iDest : nat) (array : list A) : list A * nat :=
  match count with
  | 0 => (array, iDest)
  | S count' =>
      match array !! iSrc with
      | Some x =>
          if predicate x
          then filterInPlace_loop predicate count' (S iSrc) (S iDest)
                 (<[iDest := x]> array)
          else filterInPlace_loop predicate count' (S iSrc) iDest array
      | None => (array, iDest)
      end
  end.

(** [filterInPlace(array, predicate)]: the array after the call, which is
    also what the call returns; [array.length = iDest] cuts it. *)
Definition filterInPlace {A} (array : list A) (predicate : A -> bool)
    : list A :=
  let n := List.length array in
  let '(array, iDest) := filterInPlace_loop predicate n 0 0 array in
  take iDest array.

(** [MultiMap.add(key, value)]: the map after the call. *)
Definition MultiMap_add `{Countable K} {V} (key : K) (value : V)
    (this : gmap K (list V)) : gmap K (list V) :=
  let this :=
    match this !! key with
    | None => <[key := []]> this
    | Some _ => this
    end in
  alter (fun values => values ++ [value])%list key this.

(** The longest prefix whose elements all satisfy [p]. *)
Fixpoint prefix_while {A} (p : A -> bool) (l : list A) : list A :=
  match l with
  | [] => []
  | x :: rest => if p x then x :: prefix_while p rest else []
  end.

(** The suffix that starts at the first element satisfying [p]. *)
Fixpoint from_first {A} (p : A -> bool) (l : list A) : list A :=
  match l with
  | [] => []
  | x :: rest => if p x then x :: rest else from_first p rest
  end.

(** ** tree/generic/params-schema.ts *)

(** [Issues] *)
Definition Issues : Type := list string.

(** A [Field], as validation reads it: [type.decode(value)], which is
    [Right] ([None]) or [Left] with the lines [PathReporter.report] makes of
    it; and [required]. *)
Record Field (V : Type) : Type := {
  type_decode : V -> option Issues;
  required : bool;
}.
Arguments type_decode {V} _ _.
Arguments required {V} _.

(** [fieldValidationIssues(field, value)]; [None] is [undefined]. *)
Definition fieldValidationIssues {V} (field : Field V) (value : V)
    : option Issues :=
  match type_decode field value with
  | None => None
  | Some report => Some report
  end.

(** The [options] of [paramsValidationIssues]; an option left out is
    [undefined], which is falsy. *)
Record ValidationOptions : Type := {
  requireAll : bool;
  noExtra : bool;
}.

(** A key between double quotes, as the messages show it. *)
Definition quoted (key : string) : string :=
  String (ascii_of_nat 34) (key ++ String (ascii_of_nat 34) EmptyString).

(** The loop [for (const key in schema)]; the schema and the values are
    objects given by their members in enumeration order. *)
Fixpoint schema_issues {V} (schema : list (string * Field V))
    (values : list (string * V)) (options : ValidationOptions)
    : option Issues :=
  match schema with
  | [] => None
  | (key, paramDef) :: rest =>
      match assoc key values with
      | Some value =>
          match fieldValidationIssues paramDef value with
          | Some issues =>
              Some (("Invalid type for parameter " ++ quoted key ++ ":")
                    :: map (fun s => "  " ++ s) issues)
          | None => schema_issues rest values options
          end
      | None =>
          if required paramDef
          then Some ["Missing required parameter " ++ quoted key ++ "."]
          else if requireAll options
          then Some ["Missing optional parameter " ++ quoted key ++ "."]
          else schema_issues rest values options
      end
  end.

(** The loop [for (const key in values)] under [noExtra]. *)
Fixpoint extra_issues {V} (schema : list (string * Field V))
    (keys : list string) : option Issues :=
  match keys with
  | [] => None
  | key :: rest =>
      match assoc key schema with
      | None => Some ["Unknown parameter " ++ quoted key ++ "."]
      | Some _ => extra_issues schema rest
      end
  end.

(** [paramsValidationIssues(schema, values, options)] *)
Definition paramsValidationIssues {V} (schema : list (string * Field V))
    (values : list (string * V)) (options : ValidationOptions)
    : option Issues :=
  match schema_issues schema values options with
  | Some issues => Some issues
  | None =>
      if noExtra options then extra_issues schema values.*1 else None
  end.

(** A parameter of the schema is in order: its value has the type of the
    field, or it is left out and the field and the options allow that. *)
Definition param_in_order {V} (values : list (string * V))
    (options : ValidationOptions) (param : string * Field V) : Prop :=
  match assoc param.1 values with
  | Some value => type_decode param.2 value = None
  | None => required param.2 = false /\ requireAll options = false
  end.

(** The options that ask for nothing more: [{}]. *)
Definition no_options : ValidationOptions :=
  {| requireAll := false; noExtra := false |}.

(** A schema with a required and an optional string parameter, and values
    that leave the optional one out. *)
Module SampleParams.

(** The decoder of a string type: a value that is no string is reported
    in one line. *)
Definition str (value : Json) : option Issues :=
  match value with
  | JStr _ => None
  | _ => Some ["Invalid value supplied to : string"]
  end.

Definition schema : list (string * Field Json) :=
  [ ("url", {| type_decode := str; required := true |});
    ("format", {| type_decode := str; required := false |}) ].

Definition values : list (string * Json) := [("url", JStr "ranges.json")].

End SampleParams.

(** ** tree/mvs/param-types.ts: hexadecimal colour strings *)

(** The regular expressions the sources use: a set of characters, one
    expression after the other, a choice, the empty string, and nothing. *)
Inductive Regex : Type :=
  | Nothing
  | Epsilon
  | Class (set : ascii -> bool)
  | Seq (r s : Regex)
  | Alt (r s : Regex).

(** [r{n}] *)
Fixpoint times (n : nat) (r : Regex) : Regex :=
  match n with
  | 0 => Epsilon
  | S n' => Seq r (times n' r)
  end.

(** [r{0,n}] *)
Fixpoint at_most (n : nat) (r : Regex) : Regex :=
  match n with
  | 0 => Epsilon
  | S n' => Alt (Seq r (at_most n' r)) Epsilon
  end.

(** [r{m,n}] *)
Definition between (m n : nat) (r : Regex) : Regex :=
  Seq (times m r) (at_most (n - m) r).

(** The expression matches the empty string. *)
Fixpoint nullable (r : Regex) : bool :=
  match r with
  | Nothing => false
  | Epsilon => true
  | Class _ => false
  | Seq r s => nullable r && nullable s
  | Alt r s => nullable r || nullable s
  end.

(** What is left to match after the character [c]. *)
Fixpoint derivative (c : ascii) (r : Regex) : Regex :=
  match r with
  | Nothing => Nothing
  | Epsilon => Nothing
  | Class set => if set c then Epsilon else Nothing
  | Seq r s =>
      if nullable r
      then Alt (Seq (derivative c r) s) (derivative c s)
      else Seq (derivative c r) s
  | Alt r s => Alt (derivative c r) (derivative c s)
  end.

(** [/^r$/.test(str)]: the whole string matches. *)
Fixpoint test (r : Regex) (str : string) : bool :=
  match str with
  | EmptyString => nullable r
  | String c rest => test (derivative c r) rest
  end.

(** The character code lies between those of [lo] and [hi]. *)
Definition in_range (lo hi c : ascii) : bool :=
  (nat_of_ascii lo <=? nat_of_ascii c)%nat
  && (nat_of_ascii c <=? nat_of_ascii hi)%nat.

(** The canonical form of a character under the flag [i]: its upper case. *)
Definition canonicalize (c : ascii) : ascii :=
  if in_range "a" "z" c then ascii_of_nat (nat_of_ascii c - 32) else c.

(** A set of canonical characters under the flag [i]. *)
Definition ignoreCase (set : ascii -> bool) : Regex :=
  Class (fun c => set (canonicalize c)).

(** [/^#([0-9A-F]{3}){1,2}$/i] *)
Definition hexColorRegex : Regex :=
  Seq (ignoreCase (Ascii.eqb "#"))
      (between 1 2
         (times 3
            (ignoreCase (fun c => in_range "0" "9" c || in_range "A" "F" c)))).

(** [isHexColorString(str)], on a JSON value. *)
Definition isHexColorString (str : Json) : bool :=
  match str with
  | JStr s => test hexColorRegex s
  | _ => false
  end.

(** The earlier version of param-types.ts. *)
Module Earlier.

(** [/^#[0-9A-F]{6}$/i] *)
Definition hexColorRegex : Regex :=
  Seq (ignoreCase (Ascii.eqb "#"))
      (times 6
         (ignoreCase (fun c => in_range "0" "9" c || in_range "A" "F" c))).

Definition isHexColorString (str : Json) : bool :=
  match str with
  | JStr s => test hexColorRegex s
  | _ => false
  end.

End Earlier.

(** The hexadecimal digits, in both cases. *)
Definition hex_digit (c : ascii) : bool :=
  existsb (Ascii.eqb c) (list_ascii_of_string "0123456789ABCDEFabcdef").

(** [#] and then [n] hexadecimal digits. *)
Definition hash_and_digits (n : nat) (s : string) : bool :=
  match s with
  | String c digits =>
      Ascii.eqb c "#" && (String.length digits =? n)%nat
      && forallb hex_digit (list_ascii_of_string digits)
  | EmptyString => false
  end.

(** * Properties *)

(** ** Results and loops *)

Lemma last_match_Some {A} (p : A -> bool) xs k :
  last_match p xs = Some k ->
  exists x, xs !! k = Some x /\ p x = true /\
    forall k' x', k < k' -> xs !! k' = Some x' -> p x' = false.
Proof.
  revert k. induction xs as [|x xs IH]; intros k; simpl; [done|].
  destruct (last_match p xs) as [j|] eqn:Hlast.
  - intros [= <-]. destruct (IH j eq_refl) as (y & Hy & Hp & Hlater).
    exists y. split_and!; [done..|].
    intros [|k'] x' Hlt; [lia|]. simpl. apply Hlater. lia.
  - destruct (p x) eqn:Hp; [|done]. intros [= <-].
    exists x. split_and!; [done..|].
    intros [|k'] x' Hlt; [lia|]. simpl. intros Hx'.
    clear IH. revert k' Hlt Hx'. induction xs as [|y ys IHys]; [done|].
    simpl in Hlast. destruct (last_match p ys) eqn:Hys; [done|].
    destruct (p y) eqn:Hpy; [done|].
    intros [|k'] _; simpl; [congruence|]. intros. eapply (IHys eq_refl k'); [lia|done].
Qed.

Lemma last_match_None {A} (p : A -> bool) xs :
  last_match p xs = None -> forall k x, xs !! k = Some x -> p x = false.
Proof.
  induction xs as [|y ys IH]; simpl; [done|].
  destruct (last_match p ys); [done|].
  destruct (p y) eqn:Hpy; [done|].
  intros _ [|k] x; simpl; [congruence|]. by apply IH.
Qed.

Lemma last_match_lt {A} (p : A -> bool) xs k :
  last_match p xs = Some k -> k < List.length xs.
Proof.
  intros (x & Hx & _)%last_match_Some. by eapply lookup_lt_Some.
Qed.

(** The loop [for (const row of rows) if (p(row)) result = row]. *)
Lemma foldl_last_match {A} (p : A -> bool) xs init :
  foldl (fun result row => if p row then Some row else result) init xs
  = match last_match p xs with
    | Some k => xs !! k
    | None => init
    end.
Proof.
  revert init. induction xs as [|x xs IH]; intros init; simpl; [done|].
  rewrite IH. destruct (last_match p xs); [done|].
  by destruct (p x).
Qed.

(** ** [Array.prototype.fill] *)

Lemma length_fill arr v from to :
  List.length (fill arr v from to) = List.length arr.
Proof. unfold fill. apply length_imap. Qed.

Lemma lookup_fill arr v from to j x :
  (0 <= from)%Z -> (0 <= to)%Z -> arr !! j = Some x ->
  fill arr v from to !! j
  = Some (if ((from <=? Z.of_nat j) && (Z.of_nat j <? to))%Z then v else x).
Proof.
  intros Hfrom Hto Hj. unfold fill. rewrite list_lookup_imap, Hj. simpl.
  apply lookup_lt_Some in Hj. f_equal.
  unfold relative_index.
  destruct (from <? 0)%Z eqn:?; [lia|]. destruct (to <? 0)%Z eqn:?; [lia|].
  repeat match goal with
         | |- context [(?a <=? ?b)%Z] => destruct (Z.leb_spec a b)
         | |- context [(?a <? ?b)%Z] => destruct (Z.ltb_spec a b)
         end; simpl; try done; lia.
Qed.

Lemma lookup_rangesForeach_fill ranges arr v j x :
  ranges_wf ranges -> arr !! j = Some x ->
  rangesForeach ranges (fun from to acc => fill acc v from to) arr !! j
  = Some (if covers ranges j then v else x).
Proof.
  unfold rangesForeach, covers. intros Hwf. revert arr x.
  induction Hwf as [|[from to] ranges [Hfrom Hto] _ IH]; intros arr x Hj;
    simpl; [done|].
  erewrite IH; [|by apply lookup_fill].
  simpl. destruct (_ && _)%Z; simpl; [|done]. by destruct (existsb _ _).
Qed.

Lemma length_rangesForeach_fill ranges arr v :
  List.length (rangesForeach ranges (fun from to acc => fill acc v from to) arr)
  = List.length arr.
Proof.
  unfold rangesForeach. revert arr.
  induction ranges as [|r ranges IH]; intros arr; simpl; [done|].
  by rewrite IH, length_fill.
Qed.

(** ** The row resolver *)

Section ResolverFacts.

Context {ColumnSchema : Type}.
Variable FieldsForSchemas : AnnotationSchema -> list string.
Variable CIFAnnotationSchema : gmap string ColumnSchema.
Variable toTable : gmap string ColumnSchema -> CifCategory -> Table.
Context {Indices : Type}.
Variable createIndicesAndSortings : Model -> Indices.
Variable getAtomRangesForRow : Model -> AnnotationRow -> Indices -> AtomRanges.
Variable atomQualifies : Model -> nat -> AnnotationRow -> bool.

Local Abbreviation rows_of :=
(getRows FieldsForSchemas CIFAnnotationSchema toTable).
Local Abbreviation resolve_rows :=
(getRowForEachAtom FieldsForSchemas CIFAnnotationSchema toTable
   createIndicesAndSortings getAtomRangesForRow).
Local Abbreviation reference :=
(getAnnotationForLocation_Reference FieldsForSchemas CIFAnnotationSchema
   toTable atomQualifies).
Local Abbreviation ranges_for model row :=
(getAtomRangesForRow model row (createIndicesAndSortings model)).

Lemma length_fill_rows model indices rows i result :
List.length (fill_rows getAtomRangesForRow model indices rows i result)
= List.length result.
Proof.
revert i result. induction rows as [|row rows IH]; intros i result;
  simpl; [done|].
by rewrite IH, length_rangesForeach_fill.
Qed.

(** After the loop, an entry holds the index of the last row whose ranges
  cover it, and is untouched when there is none. *)
Lemma lookup_fill_rows model indices rows i result j x :
Forall (fun row => ranges_wf (getAtomRangesForRow model row indices)) rows ->
result !! j = Some x ->
fill_rows getAtomRangesForRow model indices rows i result !! j
= Some (match last_match
                (fun row => covers (getAtomRangesForRow model row indices) j)
                rows with
        | Some k => (i + Z.of_nat k)%Z
        | None => x
        end).
Proof.
intros Hwf. revert i result x.
induction Hwf as [|row rows Hrow _ IH]; intros i result x Hj; simpl;
  [done|].
erewrite IH; [|by apply lookup_rangesForeach_fill].
destruct (last_match _ rows) as [k|]; [f_equal; lia|].
destruct (covers _ j); f_equal; lia.
Qed.

Lemma resolve_rows_Ok this model heap rows :
rows_of this = Ok rows ->
resolve_rows this model heap
= (Ok (List.length heap),
   (heap ++ [fill_rows getAtomRangesForRow model
               (createIndicesAndSortings model) rows 0
               (replicate (atoms_rowCount model) (-1)%Z)])%list).
Proof. intros Hrows. unfold getRowForEachAtom. by rewrite Hrows. Qed.

(** C2.  For a model with n atoms and a row list whose ranges are ranges of
  atom indices, [getRowForEachAtom] returns a fresh array of length
  exactly n; its entry i is at least the index of every row whose ranges
  cover atom i, and it is either -1 or the index of a row that covers
  atom i.  So entry i is the greatest index of a covering row, -1 when
  no row covers atom i, and an atom in the overlap of two rows resolves
  to the later one. *)
Theorem getRowForEachAtom_last_match_wins this model heap rows :
rows_of this = Ok rows ->
Forall (fun row => ranges_wf (ranges_for model row)) rows ->
exists result,
  resolve_rows this model heap
  = (Ok (List.length heap), (heap ++ [result])%list)
  /\ List.length result = atoms_rowCount model
  /\ forall i, i < atoms_rowCount model ->
       exists v, result !! i = Some v
         /\ (forall k row, rows !! k = Some row ->
               covers (ranges_for model row) i = true ->
               (Z.of_nat k <= v)%Z)
         /\ (v = (-1)%Z
             \/ exists row, (0 <= v)%Z /\ rows !! Z.to_nat v = Some row
                  /\ covers (ranges_for model row) i = true).
Proof.
intros Hrows Hwf. eexists. split; [by apply resolve_rows_Ok|].
split; [by rewrite length_fill_rows, length_replicate|].
intros i Hi. eexists. split.
{ apply lookup_fill_rows; [done|]. by apply lookup_replicate_2. }
destruct (last_match _ rows) as [k|] eqn:Hlast.
- apply last_match_Some in Hlast as (row & Hrow & Hcov & Hlater).
  split.
  + intros k' row' Hrow' Hcov'.
    destruct (decide (k < k')) as [Hlt|]; [|lia].
    specialize (Hlater k' row' Hlt Hrow'). simpl in Hlater. congruence.
  + right. exists row. rewrite Z.add_0_l, Nat2Z.id. split_and!; [lia|done..].
- split; [|by left].
  intros k row Hrow Hcov.
  pose proof (last_match_None _ _ Hlast k row Hrow) as Hno.
  simpl in Hno. congruence.
Qed.

(** C1.  On an annotation whose rows parse, at an atom of the model where
  the Range Matcher selects what [atomQualifies] admits, the entry of
  the indexed resolver is the index of the row the reference resolver
  returns: [rows[entry]] is that row, and the entry is -1 exactly when
  the reference finds no row. *)
Theorem indexed_resolver_agrees_with_reference this loc heap rows :
rows_of this = Ok rows ->
loc_element loc < atoms_rowCount (loc_model loc) ->
Forall (fun row =>
          ranges_wf (ranges_for (loc_model loc) row)
          /\ covers (ranges_for (loc_model loc) row) (loc_element loc)
             = atomQualifies (loc_model loc) (loc_element loc) row) rows ->
exists result iRow,
  resolve_rows this (loc_model loc) heap
  = (Ok (List.length heap), (heap ++ [result])%list)
  /\ result !! loc_element loc = Some iRow
  /\ reference this loc = Ok (array_at rows iRow)
  /\ (iRow = (-1)%Z <-> reference this loc = Ok None).
Proof.
intros Hrows Hi Hagree.
assert (Hwf : Forall (fun row => ranges_wf (ranges_for (loc_model loc) row))
                rows).
{ eapply Forall_impl; [exact Hagree|]. by intros row [? _]. }
eexists _, _. split; [by apply resolve_rows_Ok|].
split.
{ apply lookup_fill_rows; [done|]. by apply lookup_replicate_2. }
unfold getAnnotationForLocation_Reference. rewrite Hrows. simpl.
rewrite foldl_last_match.
assert (Hsame :
  last_match (atomQualifies (loc_model loc) (loc_element loc)) rows
  = last_match (fun row => covers (ranges_for (loc_model loc) row)
                             (loc_element loc)) rows).
{ clear Hrows Hwf. induction Hagree as [|row rows' [_ Heq] _ IH]; simpl;
    [done|].
  by rewrite IH, Heq. }
rewrite Hsame. clear Hsame.
destruct (last_match _ rows) as [k|] eqn:Hlast.
- pose proof (last_match_lt _ _ _ Hlast) as Hlt.
  unfold array_at. rewrite Z.add_0_l, Nat2Z.id.
  destruct (Z.leb_spec 0 (Z.of_nat k)); [|lia].
  split; [done|]. split; [lia|].
  apply lookup_lt_is_Some in Hlt as [row Hrow]. rewrite Hrow. done.
- unfold array_at. simpl. done.
Qed.

End ResolverFacts.

(** The rows of the end-to-end example of the spec, as parsed under the
    schema [residue-range]. *)
Lemma sample_rows :
  getRows spec_FieldsForSchemas Sample.no_columns Sample.no_table
    Sample.ranges_annotation
  = Ok [ <["label_asym_id" := JStr "A"]>
           (<["beg_label_seq_id" := JNum 10]>
              (<["end_label_seq_id" := JNum 20]> ∅));
         <["label_asym_id" := JStr "A"]>
           (<["beg_label_seq_id" := JNum 15]>
              (<["end_label_seq_id" := JNum 15]> ∅)) ].
Proof. vm_compute. reflexivity. Qed.

(** On the sample, the resolver returns an array of three entries. *)
Lemma getRowForEachAtom_last_match_wins_witness :
  exists result,
    getRowForEachAtom spec_FieldsForSchemas Sample.no_columns Sample.no_table
      spec_createIndicesAndSortings spec_getAtomRangesForRow
      Sample.ranges_annotation Sample.model []
    = (Ok 0, [result])
    /\ List.length result = 3.
Proof.
  destruct (getRowForEachAtom_last_match_wins
              spec_FieldsForSchemas Sample.no_columns Sample.no_table
              spec_createIndicesAndSortings spec_getAtomRangesForRow
              Sample.ranges_annotation Sample.model [] _ sample_rows)
    as (result & Hcall & Hlen & _).
  - repeat constructor; vm_compute; congruence.
  - exists result. split; [exact Hcall | exact Hlen].
Defined.

(** On the sample, at the atom of residue 15, the entry of the resolver
    identifies the row the reference returns. *)
Lemma indexed_resolver_agrees_with_reference_witness :
  exists result iRow,
    getRowForEachAtom spec_FieldsForSchemas Sample.no_columns Sample.no_table
      spec_createIndicesAndSortings spec_getAtomRangesForRow
      Sample.ranges_annotation Sample.model []
    = (Ok 0, [result])
    /\ result !! 1 = Some iRow
    /\ getAnnotationForLocation_Reference spec_FieldsForSchemas
         Sample.no_columns Sample.no_table spec_atomQualifies
         Sample.ranges_annotation
         {| loc_model := Sample.model; loc_element := 1 |}
       = Ok (array_at
               [ <["label_asym_id" := JStr "A"]>
                   (<["beg_label_seq_id" := JNum 10]>
                      (<["end_label_seq_id" := JNum 20]> ∅));
                 <["label_asym_id" := JStr "A"]>
                   (<["beg_label_seq_id" := JNum 15]>
                      (<["end_label_seq_id" := JNum 15]> ∅)) ] iRow).
Proof.
  destruct (indexed_resolver_agrees_with_reference
              spec_FieldsForSchemas Sample.no_columns Sample.no_table
              spec_createIndicesAndSortings spec_getAtomRangesForRow
              spec_atomQualifies Sample.ranges_annotation
              {| loc_model := Sample.model; loc_element := 1 |} [] _
              sample_rows)
    as (result & iRow & Hcall & Hentry & Href & _).
  - vm_compute. lia.
  - repeat constructor; vm_compute; congruence.
  - exists result, iRow. split; [exact Hcall|]. split; [exact Hentry|exact Href].
Defined.

(** ** The cache of resolved models *)

Section CacheFacts.

Context {ColumnSchema : Type}.
Variable FieldsForSchemas : AnnotationSchema -> list string.
Variable CIFAnnotationSchema : gmap string ColumnSchema.
Variable toTable : gmap string ColumnSchema -> CifCategory -> Table.
Context {Indices : Type}.
Variable createIndicesAndSortings : Model -> Indices.
Variable getAtomRangesForRow : Model -> AnnotationRow -> Indices -> AtomRanges.

Local Abbreviation rows_of :=
(getRows FieldsForSchemas CIFAnnotationSchema toTable).
Local Abbreviation indexed_model :=
(getIndexedModel FieldsForSchemas CIFAnnotationSchema toTable
   createIndicesAndSortings getAtomRangesForRow).
Local Abbreviation later :=
(after_queries FieldsForSchemas CIFAnnotationSchema toTable
   createIndicesAndSortings getAtomRangesForRow).

(** A hit returns the stored reference and changes nothing. *)
Lemma getIndexedModel_hit this model heap ref :
indexedModels this !! model_id model = Some ref ->
indexed_model this model heap = (Ok ref, this, heap).
Proof. intros Hhit. unfold getIndexedModel. by rewrite Hhit, Hhit. Qed.

(** A miss on rows that parse allocates one array and stores its
  reference. *)
Lemma getIndexedModel_miss this model heap rows :
indexedModels this !! model_id model = None ->
rows_of this = Ok rows ->
exists result,
  indexed_model this model heap
  = (Ok (List.length heap),
     {| data := data this; schema := schema this;
        indexedModels :=
          <[model_id model := List.length heap]> (indexedModels this) |},
     (heap ++ [result])%list).
Proof.
intros Hmiss Hrows. unfold getIndexedModel, getRowForEachAtom.
rewrite Hmiss, Hrows. simpl. rewrite lookup_insert_eq. by eexists.
Qed.




End CacheFacts.


(** ** The source loader *)

(** The key of a source determines its url and its format: no format name
    contains a colon, and none is a prefix of another followed by one. *)
Lemma source_key_inj u f u' f' :
  source_key u f = source_key u' f' -> u = u' /\ f = f'.
Proof.
  unfold source_key. destruct f, f'; simpl; intros H;
    solve [ discriminate | by injection H ].
Qed.

(** The key of a source begins with the name of its format. *)
Lemma source_key_not_proto u f : source_key u f <> "__proto__".
Proof. unfold source_key. by destruct f. Qed.

Lemma getFileFromSource_run ctx u f issued :
  getFileFromSource ctx u f issued
  = (file_of_source ctx (u, f), (issued ++ [request_of (u, f)])%list).
Proof.
  unfold file_of_source, getFileFromSource, request_of, resolve. simpl.
  unfold mbind, Async_bind. simpl.
  destruct (assetManager_resolve ctx u (AnnotationFormatTypes f))
    as [[rawData|]|e|]; simpl; try done.
  destruct (raw_falsy rawData); [done|].
  destruct f; simpl.
  - unfold mbind, Async_bind, liftR. by destruct (JSON_parse ctx rawData).
  - by destruct (CIF_parse ctx rawData).
  - by destruct (CIF_parse ctx rawData).
Qed.

Lemma obj_set_absent {V} key (v : V) t :
  assoc key t = None -> obj_set key v t = (t ++ [(key, v)])%list.
Proof.
  induction t as [|[k' v'] t IH]; simpl; [done|].
  destruct (String.eqb k' key); [done|]. intros Hnone. by rewrite IH.
Qed.

Lemma length_promise_table ctx k new :
  List.length (promise_table ctx k new) = List.length new.
Proof.
  revert k. induction new as [|s new IH]; intros k; simpl; [done|].
  by rewrite IH.
Qed.

Lemma promise_table_snoc ctx k new s :
  promise_table ctx k (new ++ [s])
  = (promise_table ctx k new
     ++ [(source_key s.1 s.2,
          {| promise_id := k + List.length new;
             settled := file_of_source ctx s |})])%list.
Proof.
  revert k. induction new as [|s' new IH]; intros k; simpl.
  - by rewrite Nat.add_0_r.
  - rewrite IH. by replace (S k + List.length new) with (k + S (List.length new)) by lia.
Qed.

Lemma assoc_promise_table_None ctx k new s :
  s ∉ new -> assoc (source_key s.1 s.2) (promise_table ctx k new) = None.
Proof.
  revert k. induction new as [|s' new IH]; intros k Hnot; simpl; [done|].
  apply not_elem_of_cons in Hnot as [Hne Hnot].
  destruct (String.eqb_spec (source_key s'.1 s'.2) (source_key s.1 s.2))
    as [Heq|_]; [|by apply IH].
  apply source_key_inj in Heq as [? ?]. destruct s, s'; simpl in *. congruence.
Qed.

Lemma assoc_promise_table_Some ctx k new i s :
  NoDup new -> new !! i = Some s ->
  assoc (source_key s.1 s.2) (promise_table ctx k new)
  = Some {| promise_id := k + i; settled := file_of_source ctx s |}.
Proof.
  intros Hnodup. revert k i.
  induction Hnodup as [|s' new Hnot _ IH]; intros k i; [done|].
  destruct i as [|i]; simpl.
  - intros [= ->]. rewrite String.eqb_refl. by rewrite Nat.add_0_r.
  - intros Hi.
    destruct (String.eqb_spec (source_key s'.1 s'.2) (source_key s.1 s.2))
      as [Heq|_].
    + apply source_key_inj in Heq as [? ?].
      assert (s' = s) as -> by (destruct s, s'; simpl in *; congruence).
      exfalso. apply Hnot. by eapply list_elem_of_lookup_2.
    + rewrite (IH (S k) i Hi). by replace (S k + i) with (k + S i) by lia.
Qed.

Lemma NoDup_add_distinct sources seen :
  NoDup seen -> NoDup (add_distinct sources seen).
Proof.
  revert seen. induction sources as [|src sources IH]; intros seen Hseen;
    simpl; [done|].
  apply IH. case_decide; [done|].
  apply NoDup_app. split_and!; [done| |apply NoDup_singleton].
  intros x Hx ->%list_elem_of_singleton. done.
Qed.

Lemma elem_of_add_distinct sources seen s :
  s ∈ add_distinct sources seen
  <-> s ∈ seen \/ exists src, src ∈ sources /\ s = (spec_url src, spec_format src).
Proof.
  revert seen. induction sources as [|src sources IH]; intros seen; simpl.
  - split; [by left|]. intros [?|(src & Hin & _)]; [done|].
    by apply elem_of_nil in Hin.
  - rewrite IH. split.
    + intros [Hin|(src' & Hin & ->)].
      * case_decide; [by left|].
        apply elem_of_app in Hin as [? | ->%list_elem_of_singleton]; [by left|].
        right. exists src. split; [by left|done].
      * right. exists src'. split; [by right|done].
    + intros [Hin|(src' & Hin & ->)].
      * left. case_decide; [done|]. apply elem_of_app. by left.
      * apply elem_of_cons in Hin as [-> | Hin].
        -- left. case_decide; [done|]. apply elem_of_app. right. by left.
        -- right. by exists src'.
Qed.

(** The loop of [getFileFromSources]: a source whose key is in [promises]
    issues nothing, any other issues one request and appends its promise. *)
Lemma install_promises_run ctx sources seen issued :
  NoDup seen ->
  install_promises ctx sources (promise_table ctx 0 seen)
    (issued ++ map request_of seen)%list
  = (Ok (promise_table ctx 0 (add_distinct sources seen)),
     (issued ++ map request_of (add_distinct sources seen))%list).
Proof.
  revert seen. induction sources as [|src sources IH]; intros seen Hseen;
    simpl; [done|].
  set (s := (spec_url src, spec_format src)).
  case_decide as Hin.
  - apply list_elem_of_lookup_1 in Hin as [i Hi].
    pose proof (assoc_promise_table_Some ctx 0 seen i s Hseen Hi) as Hassoc.
    simpl in Hassoc. rewrite Hassoc. by apply IH.
  - pose proof (assoc_promise_table_None ctx 0 seen s Hin) as Hassoc.
    simpl in Hassoc. rewrite Hassoc.
    unfold mbind, Async_bind, start. rewrite getFileFromSource_run.
    rewrite obj_set_absent by done.
    rewrite length_promise_table.
    pose proof (promise_table_snoc ctx 0 seen s) as Hsnoc. simpl in Hsnoc.
    fold s. rewrite <- Hsnoc.
    replace (((issued ++ map request_of seen) ++ [request_of s])%list)
      with ((issued ++ map request_of (seen ++ [s]))%list)
      by (by rewrite map_app, app_assoc).
    apply IH.
    apply NoDup_app. split_and!; [done| |apply NoDup_singleton].
    intros x Hx ->%list_elem_of_singleton. done.
Qed.

Lemma mapR_Ok_lookup {A B} (f : A -> Result B) xs ys i x :
  mapR f xs = Ok ys -> xs !! i = Some x ->
  exists y, ys !! i = Some y /\ f x = Ok y.
Proof.
  revert ys i. induction xs as [|x' xs IH]; intros ys i; simpl; [done|].
  unfold mbind, Result_bind.
  destruct (f x') as [y'| |] eqn:Hfx; try done.
  destruct (mapR f xs) as [ys'| |]; try done.
  intros [= <-]. destruct i as [|i]; simpl.
  - intros [= <-]. by exists y'.
  - by apply IH.
Qed.

Lemma mapR_Ok_length {A B} (f : A -> Result B) xs ys :
  mapR f xs = Ok ys -> List.length ys = List.length xs.
Proof.
  revert ys. induction xs as [|x xs IH]; intros ys; simpl.
  - by intros [= <-].
  - unfold mbind, Result_bind.
    destruct (f x); try done. destruct (mapR f xs) as [ys'| |]; try done.
    intros [= <-]. simpl. by rewrite (IH ys').
Qed.

Lemma mapR_all_Ok {A B} (f : A -> Result B) xs :
  (forall x, x ∈ xs -> exists y, f x = Ok y) -> exists ys, mapR f xs = Ok ys.
Proof.
  induction xs as [|x xs IH]; intros Hall; simpl; [by eexists|].
  destruct (Hall x) as [y Hy]; [by left|].
  destruct IH as [ys Hys]; [intros x' Hx'; apply Hall; by right|].
  rewrite Hy, Hys. simpl. by eexists.
Qed.

Lemma Promise_all_table ctx k new :
  Promise_all (promise_table ctx k new).*2 = mapR (file_of_source ctx) new.
Proof.
  revert k. induction new as [|s new IH]; intros k; simpl; [done|].
  rewrite IH. unfold mbind, Result_bind.
  destruct (file_of_source ctx s); try done.
Qed.

Lemma keys_promise_table ctx k new :
  (promise_table ctx k new).*1 = map (fun s => source_key s.1 s.2) new.
Proof.
  revert k. induction new as [|s new IH]; intros k; simpl; [done|].
  by rewrite IH.
Qed.

Lemma objectFromKeysAndValues_other {V} keys (values : list V) obj k :
  k ∉ keys -> objectFromKeysAndValues keys values obj !! k = obj !! k.
Proof.
  revert values obj. induction keys as [|k' keys IH]; intros values obj Hnot;
    simpl; [done|].
  apply not_elem_of_cons in Hnot as [Hne Hnot].
  rewrite IH by done.
  destruct (String.eqb k' "__proto__"); [done|]. by rewrite lookup_insert_ne.
Qed.

(** With distinct keys, [obj[keys[i]]] is [values[i]], for a key other
    than [__proto__]. *)
Lemma objectFromKeysAndValues_lookup {V} keys (values : list V) obj i k :
  NoDup keys -> keys !! i = Some k -> k <> "__proto__" ->
  objectFromKeysAndValues keys values obj !! k = Some (values !! i).
Proof.
  intros Hnodup. revert values obj i.
  induction Hnodup as [|k' keys Hnot _ IH]; intros values obj i; [done|].
  destruct i as [|i]; simpl.
  - intros [= ->] Hk. rewrite objectFromKeysAndValues_other by done.
    destruct (String.eqb_spec k "__proto__") as [?|_]; [done|].
    rewrite lookup_insert_eq. by destruct values.
  - intros Hi Hk. rewrite (IH _ _ i Hi Hk). by destruct values.
Qed.

Lemma NoDup_source_keys (new : list (string * AnnotationFormat)) :
  NoDup new -> NoDup (map (fun s => source_key s.1 s.2) new).
Proof.
  intros Hnodup.
  assert (Hinj : Inj (=) (=)
            (fun s : string * AnnotationFormat => source_key s.1 s.2)).
  { intros [u f] [u' f'] Heq. simpl in Heq.
    apply source_key_inj in Heq as [-> ->]. done. }
  by apply (NoDup_fmap_2 _).
Qed.

Lemma distinct_sources_spec sources :
  NoDup (distinct_sources sources)
  /\ forall s, s ∈ distinct_sources sources <->
       exists src, src ∈ sources /\ s = (spec_url src, spec_format src).
Proof.
  split; [apply NoDup_add_distinct, NoDup_nil_2|].
  intros s. unfold distinct_sources. rewrite elem_of_add_distinct.
  split; [|by right]. intros [Hnil|?]; [|done]. by apply elem_of_nil in Hnil.
Qed.

Lemma install_promises_distinct ctx sources issued :
  install_promises ctx sources [] issued
  = (Ok (promise_table ctx 0 (distinct_sources sources)),
     (issued ++ map request_of (distinct_sources sources))%list).
Proof.
  pose proof (install_promises_run ctx sources [] issued (NoDup_nil_2)) as Hrun.
  simpl in Hrun. rewrite app_nil_r in Hrun. exact Hrun.
Qed.

(** The whole call: the promises of the distinct sources are awaited
    together, and each source reads the value under its key. *)
Lemma getFileFromSources_run ctx sources issued :
  getFileFromSources ctx sources issued
  = (match mapR (file_of_source ctx) (distinct_sources sources) with
     | Ok results =>
         Ok (map (fun src =>
                    mjoin (objectFromKeysAndValues
                             (map (fun s => source_key s.1 s.2)
                                (distinct_sources sources))
                             results ∅
                           !! source_key (spec_url src) (spec_format src)))
               sources)
     | Throw e => Throw e
     | Unmodelled => Unmodelled
     end, (issued ++ map request_of (distinct_sources sources))%list).
Proof.
  unfold getFileFromSources, mbind, Async_bind.
  rewrite install_promises_distinct.
  unfold liftR, promiseAllObj.
  rewrite Promise_all_table, keys_promise_table.
  by destruct (mapR (file_of_source ctx) (distinct_sources sources)).
Qed.

(** The array returned is aligned with the sources. *)
Lemma getFileFromSources_aligned ctx sources issued files :
  (getFileFromSources ctx sources issued).1 = Ok files ->
  List.length files = List.length sources
  /\ forall i src, sources !! i = Some src ->
       exists file, files !! i = Some (Some file)
         /\ file_of_source ctx (spec_url src, spec_format src) = Ok file.
Proof.
  rewrite getFileFromSources_run. simpl.
  destruct (distinct_sources_spec sources) as [Hnodup Helem].
  destruct (mapR (file_of_source ctx) (distinct_sources sources))
    as [results| |] eqn:Hresults; try done.
  intros [= <-]. split; [by rewrite length_map|].
  intros i src Hsrc.
  assert (Hin : (spec_url src, spec_format src) ∈ distinct_sources sources).
  { apply Helem. exists src. split; [by eapply list_elem_of_lookup_2|done]. }
  apply list_elem_of_lookup_1 in Hin as [j Hj].
  destruct (mapR_Ok_lookup _ _ _ _ _ Hresults Hj) as (file & Hfile & Hok).
  exists file. split; [|done].
  rewrite list_lookup_fmap, Hsrc. simpl. f_equal.
  erewrite objectFromKeysAndValues_lookup;
    [ | by apply NoDup_source_keys | by rewrite list_lookup_fmap, Hj
      | apply source_key_not_proto ].
  by rewrite Hfile.
Qed.

(** C4.  [getFileFromSources] issues the [resolve] requests of the distinct
    (url, format) pairs of its sources and no other: one request per
    distinct key, however many specs share the key and whatever their
    schema and id.  The object [promises] holds one promise per key, and a
    source finds under its key the promise installed by the first source
    with that key, the one whose request it is.  When the call returns,
    the array it returns is aligned with the sources: entry i is the file
    the promise of source i settled to; and it returns whenever every
    source's promise settles to a file. *)
Theorem getFileFromSources_one_request_per_key ctx sources issued :
  let new := distinct_sources sources in
  let promises := promise_table ctx 0 new in
  NoDup new
  /\ (forall s, s ∈ new <->
        exists src, src ∈ sources /\ s = (spec_url src, spec_format src))
  /\ install_promises ctx sources [] issued
     = (Ok promises, (issued ++ map request_of new)%list)
  /\ (getFileFromSources ctx sources issued).2
     = (issued ++ map request_of new)%list
  /\ (forall src, src ∈ sources ->
        exists i, new !! i = Some (spec_url src, spec_format src)
          /\ assoc (source_key (spec_url src) (spec_format src)) promises
             = Some {| promise_id := i;
                       settled := file_of_source ctx
                                    (spec_url src, spec_format src) |})
  /\ (forall files, (getFileFromSources ctx sources issued).1 = Ok files ->
        List.length files = List.length sources
        /\ forall i src, sources !! i = Some src ->
             exists file, files !! i = Some (Some file)
               /\ file_of_source ctx (spec_url src, spec_format src) = Ok file)
  /\ ((forall src, src ∈ sources ->
         exists file,
           file_of_source ctx (spec_url src, spec_format src) = Ok file) ->
      exists files, (getFileFromSources ctx sources issued).1 = Ok files).
Proof.
  intros new promises.
  destruct (distinct_sources_spec sources) as [Hnodup Helem].
  split_and!; [done|done| | | | |].
  - apply install_promises_distinct.
  - by rewrite getFileFromSources_run.
  - intros src Hsrc.
    assert (Hin : (spec_url src, spec_format src) ∈ new)
      by (apply Helem; by exists src).
    apply list_elem_of_lookup_1 in Hin as [i Hi]. exists i. split; [done|].
    exact (assoc_promise_table_Some ctx 0 new i _ Hnodup Hi).
  - apply getFileFromSources_aligned.
  - intros Hall. rewrite getFileFromSources_run. simpl.
    destruct (mapR_all_Ok (file_of_source ctx) new) as [results Hresults].
    { intros s (src & Hsrc & ->)%Helem. by apply Hall. }
    fold new. rewrite Hresults. by eexists.
Qed.

(** ** Property reads *)

(** The decimal form of a natural number starts with a digit. *)
Lemma pretty_N_go_not_l x s :
  (forall rest, s <> String "l"%char rest) ->
  forall rest, pretty_N_go x s <> String "l"%char rest.
Proof.
  revert s. induction (N.lt_wf_0 x) as [x _ IH]; intros s Hs.
  assert (x = 0 \/ 0 < x)%N as [->|Hpos] by lia.
  - by rewrite pretty_N_go_0.
  - rewrite pretty_N_go_step by done. apply IH.
    { by apply N.div_lt. }
    intros rest. unfold pretty_N_char. by repeat case_match.
Qed.

(** No numeric index is the key [length]. *)
Lemma index_key_not_length i : String.eqb (index_key i) "length" = false.
Proof.
  apply String.eqb_neq. unfold index_key, pretty, pretty_Z.
  destruct i as [|p|p]; [done| |done].
  unfold pretty, pretty_positive, pretty, pretty_N.
  case_decide; [done|]. by apply pretty_N_go_not_l.
Qed.

Lemma index_key_eqb i j : String.eqb (index_key i) (index_key j) = (i =? j)%Z.
Proof.
  destruct (Z.eqb_spec i j) as [->|Hne]; [apply String.eqb_refl|].
  apply String.eqb_neq. intros Heq. apply Hne.
  by apply (inj (pretty : Z -> string)).
Qed.

Lemma assoc_indexed_from (items : list Json) (k : nat) (i : Z) :
  assoc (index_key i)
    (imap (fun j v => (index_key (Z.of_nat (k + j)), v)) items)
  = if (Z.of_nat k <=? i)%Z then items !! (Z.to_nat i - k) else None.
Proof.
  revert k. induction items as [|x items IH]; intros k; simpl.
  { by destruct (_ <=? _)%Z. }
  rewrite index_key_eqb.
  destruct (Z.eqb_spec (Z.of_nat (k + 0)) i) as [<-|Hne].
  - destruct (Z.leb_spec (Z.of_nat k) (Z.of_nat (k + 0))); [|lia].
    rewrite Nat2Z.id. by replace (k + 0 - k) with 0 by lia.
  - erewrite (imap_ext _ (fun j v => (index_key (Z.of_nat (S k + j)), v)));
      [|intros j y _; simpl; by replace (k + S j) with (S (k + j)) by lia].
    rewrite IH.
    destruct (Z.leb_spec (Z.of_nat k) i), (Z.leb_spec (Z.of_nat (S k)) i);
      try lia; [|done].
    assert (Z.to_nat i - k = S (Z.to_nat i - S k)) as -> by lia. done.
Qed.

(** [items[i]] *)
Lemma js_get_index items i :
  js_get (JArr items) (index_key i) = Ok (array_at items i).
Proof.
  unfold js_get. simpl. rewrite index_key_not_length. f_equal.
  unfold indexed, array_at.
  pose proof (assoc_indexed_from items 0 i) as Hassoc. simpl in Hassoc.
  rewrite Hassoc, Nat.sub_0_r. done.
Qed.

(** [items.length] *)
Lemma js_get_length items :
  js_get (JArr items) "length" = Ok (Some (JNum (Z.of_nat (List.length items)))).
Proof. done. Qed.

(** [obj[key]] on an object *)
Lemma js_get_member members key :
  js_get (JObj members) key = Ok (assoc key members).
Proof. unfold js_get. simpl. by destruct (String.eqb key "length"). Qed.

(** Only [null] has no properties to read. *)
Lemma js_get_not_null v key : v <> JNull -> exists o, js_get v key = Ok o.
Proof. intros Hv. unfold js_get. destruct v; simpl; by eauto. Qed.

Lemma nullish_not_null x d : d <> JNull -> nullish x d <> JNull.
Proof. intros Hd. by destruct x as [[]|]. Qed.
(** ** The field accessor *)

(** C5.  The accessor does not return the value of a field as a string.
    From the JSON source of the spec's example, the field
    [beg_label_seq_id] of the row that applies to the first atom comes
    back as it is stored, the number 10: neither a string nor
    [undefined].  That is what [getValueFromJson] reads in row 0. *)
Lemma getValueForLocation_returns_number :
  let result :=
    (getValueForLocation spec_FieldsForSchemas Sample.no_columns
       Sample.no_table spec_createIndicesAndSortings spec_getAtomRangesForRow
       Sample.ranges_annotation
       {| loc_model := Sample.model; loc_element := 0 |}
       "beg_label_seq_id" []).1.1 in
  getValueFromJson 0 "beg_label_seq_id" Sample.ranges_json
  = Ok (Some (JNum 10))
  /\ result = Ok (Some (JNum 10))
  /\ result <> Ok None
  /\ forall s, result <> Ok (Some (JStr s)).
Proof. vm_compute. split_and!; [done|done|done|]. intros s. discriminate. Qed.

(** ** Rows of a JSON object of arrays *)

Lemma array_at_nat {A} (arr : list A) (i : nat) :
  array_at arr (Z.of_nat i) = arr !! i.
Proof.
  unfold array_at. destruct (Z.leb_spec 0 (Z.of_nat i)); [|lia].
  by rewrite Nat2Z.id.
Qed.

Lemma assoc_is_Some {V} key (members : list (string * V)) :
  key ∈ members.*1 <-> is_Some (assoc key members).
Proof.
  induction members as [|[k v] members IH]; simpl.
  - split; [by intros ?%elem_of_nil|by intros [? ?]].
  - rewrite elem_of_cons, IH.
    destruct (String.eqb_spec k key) as [->|Hne]; [by split; eauto|].
    split; [|by right]. intros [?|?]; [congruence|done].
Qed.

Lemma someR_existsb {A} (pred : A -> Result bool) (p : A -> bool) xs :
  (forall x, x ∈ xs -> pred x = Ok (p x)) ->
  someR pred xs = Ok (existsb p xs).
Proof.
  induction xs as [|x xs IH]; intros Hpred; simpl; [done|].
  rewrite (Hpred x) by (by left). simpl.
  destruct (p x); [done|]. apply IH. intros y Hy. apply Hpred. by right.
Qed.

(** One row of an object of arrays: each key holds the element of its
    column at the row's position. *)
Lemma build_item_columns members keys i item :
  (forall key, key ∈ keys ->
     exists items, assoc key members = Some (JArr items)
                   /\ i < List.length items) ->
  exists row,
    build_item (JObj members) keys i item = Ok row
    /\ forall k, row !! k
         = if decide (k ∈ keys)
           then match assoc k members with
                | Some (JArr items) => items !! i
                | _ => None
                end
           else item !! k.
Proof.
  revert item. induction keys as [|key keys IH]; intros item Hcols.
  { exists item. split; [done|]. intros k.
    rewrite decide_False; [done|apply not_elem_of_nil]. }
  destruct (Hcols key) as (items & Hcol & Hlen); [by left|].
  cbn [build_item]. rewrite js_get_member, Hcol. cbn [mbind Result_bind].
  rewrite js_get_index, array_at_nat.
  destruct (lookup_lt_is_Some_2 items i Hlen) as [v Hv]. rewrite Hv.
  destruct (IH (<[key:=v]> item)) as (row & Hrow & Hlookup).
  { intros key' Hin. apply Hcols. by right. }
  exists row. split; [done|]. intros k. rewrite Hlookup.
  destruct (decide (k ∈ keys)) as [Hin|Hnot].
  - rewrite decide_True by (by right). done.
  - destruct (decide (k = key)) as [->|Hne].
    + rewrite decide_True by (by left). by rewrite lookup_insert_eq, Hcol.
    + rewrite decide_False by (intros [?|?]%elem_of_cons; done).
      by rewrite lookup_insert_ne.
Qed.

Section RowsFromJson.

Variable FieldsForSchemas : AnnotationSchema -> list string.

(** C6, as amended.  On a JSON object whose columns named by the schema's
  fields are arrays: if two of them differ in length, [getRowsFromJson]
  throws the format error; if there is such a column and all have length
  n, it returns exactly n rows, and row i holds under each such key the
  i-th element of that key's array and holds nothing else; without such
  a column it returns no row.  The load itself reads no row:
  [Annotation.fromSpec] returns an Annotation for any JSON file. *)
Theorem getRowsFromJson_object_of_arrays schema members :
(forall k c, k ∈ FieldsForSchemas schema -> assoc k members = Some c ->
   exists items, c = JArr items) ->
(forall k1 k2 items1 items2,
   k1 ∈ FieldsForSchemas schema -> k2 ∈ FieldsForSchemas schema ->
   assoc k1 members = Some (JArr items1) ->
   assoc k2 members = Some (JArr items2) ->
   List.length items1 <> List.length items2 ->
   getRowsFromJson FieldsForSchemas (JObj members) schema
   = Throw (Error "FormatError: arrays must have the same length."))
/\ (forall n,
      (exists k, k ∈ FieldsForSchemas schema /\ is_Some (assoc k members)) ->
      (forall k items, k ∈ FieldsForSchemas schema ->
         assoc k members = Some (JArr items) -> List.length items = n) ->
      exists rows,
        getRowsFromJson FieldsForSchemas (JObj members) schema = Ok rows
        /\ List.length rows = n
        /\ forall i row, rows !! i = Some row ->
             forall k, row !! k
               = if decide (k ∈ FieldsForSchemas schema)
                 then match assoc k members with
                      | Some (JArr items) => items !! i
                      | _ => None
                      end
                 else None)
/\ ((forall k, k ∈ FieldsForSchemas schema -> assoc k members = None) ->
    getRowsFromJson FieldsForSchemas (JObj members) schema = Ok [])
/\ (forall ctx spec issued,
      fromSpec ctx spec (Some (JsonFile (JObj members))) issued
      = (Ok (new_Annotation (JsonData (JObj members)) (spec_schema spec)),
         issued)).
Proof.
intros Harrays.
set (keys := filter (fun key => key ∈ FieldsForSchemas schema) members.*1).
assert (Hkeys : forall key, key ∈ keys <->
          key ∈ FieldsForSchemas schema /\ is_Some (assoc key members)).
{ intros key. unfold keys. rewrite list_elem_of_filter, assoc_is_Some.
  tauto. }
assert (Hcolumn : forall key, key ∈ keys ->
          exists items, assoc key members = Some (JArr items)).
{ intros key [Hwanted [c Hc]]%Hkeys.
  destruct (Harrays key c Hwanted Hc) as [items ->]. by exists items. }
(* the two checks of the source, on a first key whose column has length n0 *)
assert (Hrun : forall key0 rest items0, keys = key0 :: rest ->
          assoc key0 members = Some (JArr items0) ->
          getRowsFromJson FieldsForSchemas (JObj members) schema
          = if existsb (fun key =>
                 match assoc key members with
                 | Some (JArr items) =>
                     negb (Z.of_nat (List.length items)
                           =? Z.of_nat (List.length items0))%Z
                 | _ => true
                 end) keys
            then Throw (Error "FormatError: arrays must have the same length.")
            else mapR (fun i => build_item (JObj members) keys i ∅)
                   (seq 0 (List.length items0))).
{ intros key0 rest items0 Hsplit Hcol0.
  unfold getRowsFromJson, Object_keys.
  cbn [own_members fmap Result_fmap mbind Result_bind]. fold keys.
  rewrite Hsplit.
  rewrite js_get_member, Hcol0. cbn [mbind Result_bind js_length].
  rewrite js_get_length. cbn [mbind Result_bind]. rewrite <- Hsplit.
  erewrite someR_existsb; [cbn [mbind Result_bind loop_bound];
                           by rewrite Nat2Z.id|].
  intros key [items Hcol]%Hcolumn.
  by rewrite js_get_member, Hcol. }
split_and!.
- intros k1 k2 items1 items2 Hw1 Hw2 Hc1 Hc2 Hdiff.
  assert (Hin1 : k1 ∈ keys) by (apply Hkeys; by eauto).
  assert (Hin2 : k2 ∈ keys) by (apply Hkeys; by eauto).
  destruct keys as [|key0 rest] eqn:Hsplit; [by apply elem_of_nil in Hin1|].
  destruct (Hcolumn key0) as [items0 Hcol0]; [by left|].
  rewrite (Hrun key0 rest items0 eq_refl Hcol0).
  replace (existsb _ (key0 :: rest)) with true; [done|].
  symmetry. apply existsb_exists.
  destruct (decide (List.length items1 = List.length items0)) as [Heq|Hne].
  + exists k2. split; [by apply list_elem_of_In|]. rewrite Hc2.
    apply negb_true_iff, Z.eqb_neq. lia.
  + exists k1. split; [by apply list_elem_of_In|]. rewrite Hc1.
    apply negb_true_iff, Z.eqb_neq. lia.
- intros n (k & Hk & Hsome) Hlen.
  assert (Hin : k ∈ keys) by (by apply Hkeys).
  destruct keys as [|key0 rest] eqn:Hsplit; [by apply elem_of_nil in Hin|].
  destruct (Hcolumn key0) as [items0 Hcol0]; [by left|].
  assert (Hn0 : List.length items0 = n).
  { eapply Hlen; [|done]. apply (Hkeys key0). by left. }
  rewrite (Hrun key0 rest items0 eq_refl Hcol0).
  replace (existsb _ (key0 :: rest)) with false.
  2:{ symmetry. apply not_true_is_false. intros (key & Hkey & Hbad)%existsb_exists.
      apply list_elem_of_In in Hkey.
      destruct (Hcolumn key Hkey) as [items Hcol]. rewrite Hcol in Hbad.
      apply negb_true_iff, Z.eqb_neq in Hbad.
      assert (List.length items = n); [|lia].
      eapply Hlen; [|done]. by apply (Hkeys key). }
  rewrite Hn0.
  assert (Hitem : forall i, i ∈ seq 0 n ->
            exists row,
              build_item (JObj members) (key0 :: rest) i ∅ = Ok row
              /\ forall k', row !! k'
                   = if decide (k' ∈ key0 :: rest)
                     then match assoc k' members with
                          | Some (JArr items) => items !! i
                          | _ => None
                          end
                     else None).
  { intros i Hi%elem_of_seq.
    destruct (build_item_columns members (key0 :: rest) i ∅)
      as (row & Hrow & Hlookup).
    - intros key Hkey. destruct (Hcolumn key Hkey) as [items Hcol].
      exists items. split; [done|].
      assert (List.length items = n); [|lia].
      eapply Hlen; [|done]. by apply (Hkeys key).
    - exists row. split; [done|]. intros k'. rewrite Hlookup.
      case_decide; [done|]. by rewrite lookup_empty. }
  destruct (mapR_all_Ok (fun i => build_item (JObj members) (key0 :: rest) i ∅)
              (seq 0 n)) as [rows Hrows].
  { intros i Hi. destruct (Hitem i Hi) as (row & Hrow & _). by exists row. }
  exists rows. split; [done|].
  split; [by rewrite (mapR_Ok_length _ _ _ Hrows), length_seq|].
  intros i row Hi k'.
  assert (Hlt : i < n).
  { apply lookup_lt_Some in Hi.
    by rewrite (mapR_Ok_length _ _ _ Hrows), length_seq in Hi. }
  destruct (mapR_Ok_lookup _ _ _ i i Hrows) as (row' & Hrow' & Hbuilt).
  { by rewrite lookup_seq_lt. }
  assert (row' = row) as -> by congruence.
  destruct (Hitem i) as (row'' & Hbuilt' & Hlookup);
    [apply elem_of_seq; lia|].
  assert (row'' = row) as -> by congruence.
  rewrite Hlookup.
  destruct (decide (k' ∈ key0 :: rest)) as [Hk'|Hk'].
  + apply Hkeys in Hk' as [Hw _]. by rewrite decide_True.
  + case_decide as Hw; [|done].
    destruct (assoc k' members) as [c|] eqn:Hc; [|done].
    exfalso. apply Hk', Hkeys. by eauto.
- intros Hnone. unfold getRowsFromJson. simpl. fold keys.
  destruct keys as [|key0 rest] eqn:Hsplit; [done|].
  assert (Hin : key0 ∈ key0 :: rest) by (by left).
  apply Hkeys in Hin as [Hw [c Hc]]. rewrite (Hnone key0 Hw) in Hc. done.
- done.
Qed.

End RowsFromJson.

(** The object of arrays of the sample has columns of length 2 and parses
    to two rows. *)
Lemma getRowsFromJson_object_of_arrays_witness :
  exists rows,
    getRowsFromJson spec_FieldsForSchemas Sample.columns_json sch_residue_range
    = Ok rows
    /\ List.length rows = 2.
Proof.
  destruct (getRowsFromJson_object_of_arrays spec_FieldsForSchemas
              sch_residue_range
              [ ("label_asym_id", JArr [JStr "A"; JStr "A"]);
                ("beg_label_seq_id", JArr [JNum 10; JNum 15]);
                ("end_label_seq_id", JArr [JNum 20; JNum 15]);
                ("color", JArr [JStr "red"; JStr "blue"]) ])
    as (_ & Hequal & _).
  - intros k c Hk.
    repeat (apply elem_of_cons in Hk as [-> | Hk]);
      [| | | |by apply elem_of_nil in Hk];
      vm_compute; intros [= <-]; eauto.
  - destruct (Hequal 2) as (rows & Hrows & Hlen & _).
    + exists "label_asym_id". split; [|by eexists].
      simpl. by right; left.
    + intros k items Hk.
      repeat (apply elem_of_cons in Hk as [-> | Hk]);
        [| | | |by apply elem_of_nil in Hk];
        vm_compute; by intros [= <-].
    + exists rows. split; [exact Hrows|exact Hlen].
Defined.

(** Against C6 as stated.  Columns of different lengths do not fail the
    load: [fromSpecs] returns
    the collection with an Annotation for the source, and the format error
    is thrown when that Annotation's rows are resolved for a model. *)
Lemma mismatched_columns_load :
  (fromSpecs Sample.ctx
     [Sample.json_spec "mismatched.json" sch_residue_range "m"] []).1
  = Ok {| dict_own := [("m", new_Annotation (JsonData Sample.mismatched_json)
                               sch_residue_range)];
          dict_proto := None |}
  /\ (getIndexedModel spec_FieldsForSchemas Sample.no_columns Sample.no_table
        spec_createIndicesAndSortings spec_getAtomRangesForRow
        (new_Annotation (JsonData Sample.mismatched_json) sch_residue_range)
        Sample.model []).1.1
     = Throw (Error "FormatError: arrays must have the same length.").
Proof. split; vm_compute; reflexivity. Qed.

(** ** Loading one annotation *)

Lemma fromSpec_given ctx spec file issued :
  fromSpec ctx spec (Some file) issued = (fromSpec_switch spec file, issued).
Proof. done. Qed.

Lemma find_head_filter (h : string) (bs : list CifBlock) :
  find (fun b => String.eqb (header b) h) bs
  = head (filter (fun b => header b = h) bs).
Proof.
  induction bs as [|b bs IH]; simpl; [done|].
  rewrite filter_cons.
  destruct (String.eqb_spec (header b) h) as [Heq|Hne].
  - by rewrite decide_True.
  - by rewrite decide_False.
Qed.

Lemma select_block_selected blockSpec file b0 rest :
  blocks file = b0 :: rest ->
  match selected_block blockSpec file with
  | Some block => select_block blockSpec file b0 = Ok block
  | None => exists e, select_block blockSpec file b0 = Throw e
  end.
Proof.
  intros Hblocks. destruct blockSpec as [|i|h]; simpl.
  - by rewrite Hblocks.
  - destruct (array_at (blocks file) i); by eauto.
  - rewrite find_head_filter.
    destruct (head (filter _ (blocks file))); by eauto.
Qed.

Lemma select_category_selected cifCategory block :
  Forall (fun c => c.1 <> "") (categories block) ->
  match selected_category cifCategory block with
  | Some category => select_category cifCategory block = Ok category
  | None => exists e, select_category cifCategory block = Throw e
  end.
Proof.
  intros Hnamed. unfold select_category, selected_category.
  destruct cifCategory as [name|].
  - destruct (assoc name (categories block)) as [category|] eqn:Hname.
    + destruct name as [|c name]; [|done].
      exfalso. clear -Hnamed Hname.
      induction Hnamed as [|[k v] cs Hk _ IH]; simpl in *; [done|].
      destruct (String.eqb_spec k ""); [done|]. by apply IH.
    + destruct name; by eauto.
  - destruct (categories block) as [|[k category] cs]; simpl; [by eauto|].
    apply Forall_cons_1 in Hnamed as [Hk _]. simpl in Hk.
    destruct k as [|c k]; [done|].
    simpl. by rewrite Ascii.eqb_refl, String.eqb_refl.
Qed.

(** C7.  On a CIF file whose categories have names, [Annotation.fromSpec]
    returns the Annotation of the category the spec selects, in the block
    the spec selects, with the schema of the spec, and throws when there is
    no such block or no such category: it throws on a file without blocks,
    on a header no block has, on an index outside the blocks, on a block
    without categories when no name is given, and on a name no category of
    the block has.  When it throws there is no Annotation. *)
Theorem fromSpec_selects_block_and_category ctx spec file issued :
  categories_named file ->
  match selected_block (spec_cifBlock spec) file
        ≫= selected_category (spec_cifCategory spec) with
  | Some category =>
      fromSpec ctx spec (Some (CifFileData file)) issued
      = (Ok (new_Annotation (CifData category) (spec_schema spec)), issued)
  | None =>
      exists e,
        fromSpec ctx spec (Some (CifFileData file)) issued = (Throw e, issued)
  end
  /\ (blocks file = [] -> selected_block (spec_cifBlock spec) file = None)
  /\ (forall h, spec_cifBlock spec = block_header h ->
        (forall b, b ∈ blocks file -> header b <> h) ->
        selected_block (spec_cifBlock spec) file = None)
  /\ (forall i, spec_cifBlock spec = block_index i ->
        (i < 0 \/ Z.of_nat (List.length (blocks file)) <= i)%Z ->
        selected_block (spec_cifBlock spec) file = None)
  /\ (forall block, categories block = [] ->
        selected_category None block = None)
  /\ (forall block name, (forall c, c ∈ categories block -> c.1 <> name) ->
        selected_category (Some name) block = None).
Proof.
  intros Hnamed. split_and!.
  - rewrite fromSpec_given. unfold fromSpec_switch.
    destruct (blocks file) as [|b0 rest] eqn:Hblocks.
    { assert (selected_block (spec_cifBlock spec) file = None) as ->.
      { unfold selected_block, array_at. rewrite Hblocks.
        destruct (spec_cifBlock spec) as [|i|h]; simpl; [done| |done].
        by destruct (0 <=? i)%Z. }
      simpl. by eauto. }
    pose proof (select_block_selected (spec_cifBlock spec) file b0 rest Hblocks)
      as Hblock.
    destruct (selected_block (spec_cifBlock spec) file) as [block|] eqn:Hsel;
      simpl.
    + rewrite Hblock. simpl.
      assert (Hin : block ∈ blocks file).
      { clear -Hsel. unfold selected_block, array_at in Hsel.
        destruct (spec_cifBlock spec) as [|i|h].
        - by apply head_Some_elem_of.
        - destruct (0 <=? i)%Z; [|done]. by eapply list_elem_of_lookup_2.
        - apply head_Some_elem_of in Hsel.
          by apply list_elem_of_filter in Hsel as [_ ?]. }
      pose proof (select_category_selected (spec_cifCategory spec) block)
        as Hcategory.
      destruct (selected_category (spec_cifCategory spec) block) as [category|].
      * rewrite Hcategory; [done|].
        unfold categories_named in Hnamed. rewrite Forall_forall in Hnamed.
        by apply Hnamed.
      * destruct Hcategory as [e ->]; [|by eauto].
        unfold categories_named in Hnamed. rewrite Forall_forall in Hnamed.
        by apply Hnamed.
    + destruct Hblock as [e ->]. simpl. by eauto.
  - intros Hblocks. unfold selected_block, array_at. rewrite Hblocks.
    destruct (spec_cifBlock spec) as [|i|h]; simpl; [done| |done].
    by destruct (0 <=? i)%Z.
  - intros h -> Hnone. simpl.
    destruct (filter _ (blocks file)) as [|b bs] eqn:Hfilter; [done|].
    assert (Hb : b ∈ filter (fun b => header b = h) (blocks file))
      by (rewrite Hfilter; by left).
    apply list_elem_of_filter in Hb as [Hh Hin]. by destruct (Hnone b Hin).
  - intros i -> Hout. simpl. unfold array_at.
    destruct (Z.leb_spec 0 i); [|done].
    apply lookup_ge_None. lia.
  - intros block Hempty. simpl. by rewrite Hempty.
  - intros block name Hnone. simpl.
    destruct (assoc name (categories block)) as [category|] eqn:Hname; [|done].
    exfalso. clear -Hnone Hname.
    induction (categories block) as [|[k v] cs IH]; simpl in *; [done|].
    destruct (String.eqb_spec k name) as [Heq|Hne].
    + apply (Hnone (k, v)); [by left|done].
    + apply IH; [|done]. intros c Hc. apply Hnone. by right.
Qed.

(** On a block with the categories a and b and no category name in the
    spec, the first declared category, a, is selected. *)
Lemma fromSpec_selects_block_and_category_witness :
  fromSpec Sample.ctx
    {| spec_url := "annotations.cif"; spec_format := cif;
       spec_schema := sch_chain; spec_cifBlock := block_index 0;
       spec_cifCategory := None; spec_id := "x" |}
    (Some (CifFileData Sample.cif_file)) []
  = (Ok (new_Annotation (CifData Sample.category_a) sch_chain), []).
Proof.
  refine (proj1 (fromSpec_selects_block_and_category Sample.ctx
                   {| spec_url := "annotations.cif"; spec_format := cif;
                      spec_schema := sch_chain; spec_cifBlock := block_index 0;
                      spec_cifCategory := None; spec_id := "x" |}
                   Sample.cif_file [] _)).
  repeat constructor; simpl; discriminate.
Defined.

(** ** Rows of a CIF category *)

(** [pickObjectKeys] on an object whose property reads do not throw keeps
    the keys asked for that the object has, with their values. *)
Lemma pickObjectKeys_loop_lookup {V} (own : string -> Result (option V))
    (o : string -> option V) keys result :
  (forall key, key ∈ keys -> own key = Ok (o key)) ->
  exists picked,
    pickObjectKeys_loop own keys result = Ok picked
    /\ forall k, picked !! k
         = if decide (k ∈ keys)
           then match o k with
                | Some v => Some v
                | None => result !! k
                end
           else result !! k.
Proof.
  revert result. induction keys as [|key keys IH]; intros result Hown.
  { exists result. split; [done|]. intros k.
    rewrite decide_False; [done|apply not_elem_of_nil]. }
  cbn [pickObjectKeys_loop]. rewrite (Hown key) by (by left).
  cbn [mbind Result_bind].
  destruct (IH (match o key with
                | Some v => <[key:=v]> result
                | None => result
                end)) as (picked & Hpicked & Hlookup).
  { intros key' Hin. apply Hown. by right. }
  exists picked. split; [done|]. intros k. rewrite Hlookup.
  destruct (decide (k ∈ keys)) as [Hin|Hnot].
  - rewrite decide_True by (by right).
    destruct (o k) eqn:Hk; [done|].
    destruct (o key) eqn:Hkey; [|done].
    destruct (decide (k = key)) as [->|Hne]; [congruence|].
    by rewrite lookup_insert_ne.
  - destruct (decide (k = key)) as [->|Hne].
    + rewrite decide_True by (by left).
      destruct (o key); [by rewrite lookup_insert_eq|done].
    + rewrite decide_False by (intros [?|?]%elem_of_cons; done).
      destruct (o key); [by rewrite lookup_insert_ne|done].
Qed.

(** The loop over the columns: a column enters the row when its value kind
    at the row is [Present], with its value there. *)
Lemma table_row_lookup table columns iRow row col :
  table_row table columns iRow row !! col
  = if decide (col ∈ columns
               /\ valueKind (table_column table col) (Z.of_nat iRow) = Present)
    then Some (value (table_column table col) (Z.of_nat iRow))
    else row !! col.
Proof.
  revert row. induction columns as [|c columns IH]; intros row.
  { rewrite decide_False; [done|]. intros [?%elem_of_nil _]. done. }
  cbn [table_row]. rewrite IH.
  destruct (decide (col ∈ columns /\ _)) as [[Hin Hkind]|Hnot].
  - rewrite decide_True; [done|]. split; [by right|done].
  - destruct (decide (col = c)) as [->|Hne].
    + destruct (decide (valueKind (table_column table c) (Z.of_nat iRow)
                        = Present)) as [Hkind|Hkind].
      * rewrite decide_True by (split; [by left|done]).
        by rewrite lookup_insert_eq.
      * rewrite decide_False; [done|]. by intros [_ ?].
    + destruct (decide (col ∈ c :: columns /\ _)) as [[Hin Hkind]|_].
      { apply elem_of_cons in Hin as [? | ?]; [done|]. by destruct Hnot. }
      case_decide; [by rewrite lookup_insert_ne|done].
Qed.

Section RowsFromCif.

Context {ColumnSchema : Type}.
Variable FieldsForSchemas : AnnotationSchema -> list string.
Variable CIFAnnotationSchema : gmap string ColumnSchema.
Variable toTable : gmap string ColumnSchema -> CifCategory -> Table.

(** C8.  [getRowsFromTable] returns one row per table row, and a column of
  the table is a key of row i if and only if its value kind at row i is
  [Present]; the key then holds the column's value at row i.  A field
  marked [.] or [?] is thus absent from the row, with no default in its
  place.  [getRowsFromCif] returns these rows for the table [toTable]
  makes of the category, under the columns of [CIFAnnotationSchema] that
  the schema's field list names. *)
Theorem getRowsFromTable_omits_absent_fields :
(forall table,
   List.length (getRowsFromTable table) = _rowCount table
   /\ forall iRow, iRow < _rowCount table ->
        exists row,
          getRowsFromTable table !! iRow = Some row
          /\ forall col,
               (is_Some (row !! col) <->
                  col ∈ _columns table
                  /\ valueKind (table_column table col) (Z.of_nat iRow)
                     = Present)
               /\ (forall v, row !! col = Some v ->
                     v = value (table_column table col) (Z.of_nat iRow)))
/\ (forall data schema,
      exists cifSchema,
        getRowsFromCif FieldsForSchemas CIFAnnotationSchema toTable data schema
        = Ok (getRowsFromTable (toTable cifSchema data))
        /\ forall k, cifSchema !! k
             = if decide (k ∈ FieldsForSchemas schema)
               then CIFAnnotationSchema !! k
               else None).
Proof.
split.
- intros table. unfold getRowsFromTable.
  split; [by rewrite length_map, length_seq|].
  intros iRow Hlt. eexists. split.
  { rewrite list_lookup_fmap, lookup_seq_lt by done. done. }
  intros col. simpl. rewrite table_row_lookup, lookup_empty.
  case_decide as Hcol.
  + split; [split; [done|by eauto]|]. by intros v [= <-].
  + split; [|done]. split; [by intros [? ?]|done].
- intros data schema. unfold getRowsFromCif, pickObjectKeys.
  destruct (pickObjectKeys_loop_lookup
              (fun key => Ok (CIFAnnotationSchema !! key))
              (fun key => CIFAnnotationSchema !! key)
              (FieldsForSchemas schema) ∅) as (cifSchema & -> & Hlookup);
    [done|].
  exists cifSchema. split; [done|]. intros k. rewrite Hlookup, lookup_empty.
  case_decide; [|done]. by destruct (CIFAnnotationSchema !! k).
Qed.

End RowsFromCif.

(** ** Rows and the Range Matcher *)

(** A row object that has none of the keys asked for gives the empty row. *)
Lemma pickObjectKeys_none members keys :
  (forall k, k ∈ keys -> assoc k members = None) ->
  pickObjectKeys (js_get (JObj members)) keys = Ok ∅.
Proof.
  intros Hnone. unfold pickObjectKeys.
  destruct (pickObjectKeys_loop_lookup (js_get (JObj members))
              (fun k => assoc k members) keys ∅) as (picked & -> & Hlookup).
  { intros key _. apply js_get_member. }
  f_equal. apply map_eq. intros k. rewrite Hlookup, lookup_empty.
  case_decide as Hin; [|done]. by rewrite (Hnone k Hin).
Qed.

Lemma covers_cons r rs j :
  covers (r :: rs) j
  = ((r.1 <=? Z.of_nat j)%Z && (Z.of_nat j <? r.2)%Z) || covers rs j.
Proof. done. Qed.

(** Closes a case of [covers_runs] once the comparisons are decided. *)
Local Ltac run_case j k :=
  cbn -[Nat.leb Nat.ltb Nat.sub lookup]; try lia; try done;
  first [ by replace (j - k) with 0 by lia
        | by replace (j - k) with (S (j - S k)) by lia ].

(** The ranges of [runs] cover the atoms flagged from [k] on, and those of
    the run in progress. *)
Lemma covers_runs flags (k : nat) (start : option nat) j :
  (forall s, start = Some s -> (s <= k)%nat) ->
  covers (runs flags (Z.of_nat k) (Z.of_nat <$> start)) j
  = match start with
    | Some s => (s <=? j)%nat && (j <? k)%nat
    | None => false
    end
    || (k <=? j)%nat && default false (flags !! (j - k)).
Proof.
  revert k start. induction flags as [|flag flags IH]; intros k start Hstart.
  - destruct start as [s|]; simpl; rewrite andb_false_r, ?orb_false_r;
      [|done].
    destruct (Nat.leb_spec s j), (Nat.ltb_spec j k),
      (Z.leb_spec (Z.of_nat s) (Z.of_nat j)),
      (Z.ltb_spec (Z.of_nat j) (Z.of_nat k)); simpl; try done; lia.
  - assert (Hnext : (Z.of_nat k + 1)%Z = Z.of_nat (S k)) by lia.
    destruct flag; cbn [runs]; rewrite Hnext.
    + replace (Some (default (Z.of_nat k) (Z.of_nat <$> start)))
        with (Z.of_nat <$> Some (default k start))
        by (by destruct start).
      rewrite IH.
      2:{ intros s [= <-]. destruct start as [s'|]; simpl; [|lia].
          specialize (Hstart s' eq_refl). lia. }
      destruct start as [s|]; cbn -[Nat.leb Nat.ltb Nat.sub lookup].
      * specialize (Hstart s eq_refl).
        destruct (Nat.leb_spec s j), (Nat.ltb_spec j (S k)),
          (Nat.ltb_spec j k), (Nat.leb_spec k j), (Nat.leb_spec (S k) j);
          run_case j k.
      * destruct (Nat.leb_spec k j), (Nat.ltb_spec j (S k)),
          (Nat.leb_spec (S k) j); run_case j k.
    + destruct start as [s|]; cbn [fmap option_fmap option_map].
      * specialize (Hstart s eq_refl).
        rewrite covers_cons. cbn [fst snd].
        change (@None Z) with (Z.of_nat <$> @None nat).
        rewrite IH by done.
        destruct (Nat.leb_spec s j), (Nat.ltb_spec j k),
          (Z.leb_spec (Z.of_nat s) (Z.of_nat j)),
          (Z.ltb_spec (Z.of_nat j) (Z.of_nat k)),
          (Nat.leb_spec k j), (Nat.leb_spec (S k) j); run_case j k.
      * change (@None Z) with (Z.of_nat <$> @None nat).
        rewrite IH by done.
        destruct (Nat.leb_spec k j), (Nat.leb_spec (S k) j); run_case j k.
Qed.

Lemma ranges_wf_runs flags (k : nat) (start : option nat) :
  ranges_wf (runs flags (Z.of_nat k) (Z.of_nat <$> start)).
Proof.
  revert k start. induction flags as [|flag flags IH]; intros k start.
  - destruct start; simpl; repeat constructor; simpl; lia.
  - assert (Hnext : (Z.of_nat k + 1)%Z = Z.of_nat (S k)) by lia.
    destruct flag; cbn [runs]; rewrite Hnext.
    + replace (Some (default (Z.of_nat k) (Z.of_nat <$> start)))
        with (Z.of_nat <$> Some (default k start))
        by (by destruct start).
      apply IH.
    + destruct start as [s|]; simpl.
      * constructor; [simpl; lia|]. apply (IH (S k) None).
      * apply (IH (S k) None).
Qed.

(** The Range Matcher modelled from the spec selects the atoms that
    [spec_atomQualifies] admits, in ranges of atom indices. *)
Lemma spec_matcher_selects model row indices :
  ranges_wf (spec_getAtomRangesForRow model row indices)
  /\ forall i, covers (spec_getAtomRangesForRow model row indices) i
               = spec_atomQualifies model i row.
Proof.
  unfold spec_getAtomRangesForRow. split.
  { apply (ranges_wf_runs _ 0 None). }
  intros i. rewrite (covers_runs _ 0 None i) by done. simpl.
  rewrite Nat.sub_0_r, list_lookup_fmap.
  destruct (decide (i < atoms_rowCount model)) as [Hlt|Hge].
  - by rewrite lookup_seq_lt.
  - rewrite lookup_seq_ge by lia. simpl.
    unfold spec_atomQualifies, atoms_rowCount in *.
    by rewrite lookup_ge_None_2 by lia.
Qed.

Lemma admits_num_bounds row field_beg field_end b e seq_id :
  row !! field_beg = Some (JNum b) -> row !! field_end = Some (JNum e) ->
  (e < b)%Z ->
  admits_num row field_beg (fun b => (b <=? seq_id)%Z)
  && admits_num row field_end (fun e => (seq_id <=? e)%Z) = false.
Proof.
  intros Hb He Hlt. unfold admits_num. rewrite Hb, He.
  destruct (Z.leb_spec b seq_id), (Z.leb_spec seq_id e); simpl; try done; lia.
Qed.

Lemma spec_atomQualifies_empty_range model i row field_beg field_end b e :
  (field_beg = "beg_label_seq_id" /\ field_end = "end_label_seq_id"
   \/ field_beg = "beg_auth_seq_id" /\ field_end = "end_auth_seq_id") ->
  row !! field_beg = Some (JNum b) -> row !! field_end = Some (JNum e) ->
  (e < b)%Z ->
  spec_atomQualifies model i row = false.
Proof.
  intros Hfields Hb He Hlt. unfold spec_atomQualifies.
  destruct (atoms model !! i) as [a|]; [|done].
  apply not_true_is_false. intros Hall.
  repeat match type of Hall with
         | (_ && _ = true) => apply andb_prop in Hall as [Hall ?]
         end.
  destruct Hfields as [[-> ->]|[-> ->]].
  - pose proof (admits_num_bounds row _ _ b e (label_seq_id a) Hb He Hlt)
      as Hfalse.
    apply andb_false_iff in Hfalse as [Hfalse|Hfalse]; congruence.
  - pose proof (admits_num_bounds row _ _ b e (auth_seq_id a) Hb He Hlt)
      as Hfalse.
    apply andb_false_iff in Hfalse as [Hfalse|Hfalse]; congruence.
Qed.

Section MatcherFacts.

Context {ColumnSchema : Type}.
Variable FieldsForSchemas : AnnotationSchema -> list string.
Variable CIFAnnotationSchema : gmap string ColumnSchema.
Variable toTable : gmap string ColumnSchema -> CifCategory -> Table.
Context {Indices : Type}.
Variable createIndicesAndSortings : Model -> Indices.
Variable getAtomRangesForRow : Model -> AnnotationRow -> Indices -> AtomRanges.

Local Abbreviation resolve_rows :=
(getRowForEachAtom FieldsForSchemas CIFAnnotationSchema toTable
   createIndicesAndSortings getAtomRangesForRow).

(** Rows that have none of the fields of the schema parse to empty rows. *)
Lemma getRowsFromJson_no_selector items schema :
(forall row, row ∈ items ->
   exists members, row = JObj members
     /\ forall k, k ∈ FieldsForSchemas schema -> assoc k members = None) ->
getRowsFromJson FieldsForSchemas (JArr items) schema
= Ok (replicate (List.length items) ∅).
Proof.
unfold getRowsFromJson.
induction items as [|row items IH]; intros Hrows; [done|].
destruct (Hrows row) as (members & -> & Hnone); [by left|].
cbn [mapR]. rewrite pickObjectKeys_none by done.
rewrite IH by (intros row' Hin; apply Hrows; by right). done.
Qed.

(** C9, as amended.  The resolver hands the Range Matcher the model, the
  row and the indices, and no schema: rows in which no field of the
  schema is present parse to empty rows under every schema, and resolve
  for every atom as they do under any other schema, [whole-structure]
  included.  With the selection helpers modelled from the spec, a row
  whose range begin exceeds its end, in label or in author numbering,
  selects no atom, and selecting is a total function: no error. *)
Theorem row_selection_ignores_schema :
(forall items schema,
   (forall row, row ∈ items ->
      exists members, row = JObj members
        /\ forall k, k ∈ FieldsForSchemas schema -> assoc k members = None) ->
   getRowsFromJson FieldsForSchemas (JArr items) schema
   = Ok (replicate (List.length items) ∅))
/\ (forall items schema1 schema2 model heap,
      (forall row, row ∈ items ->
         exists members, row = JObj members
           /\ forall k, k ∈ FieldsForSchemas schema1
                        \/ k ∈ FieldsForSchemas schema2 ->
                assoc k members = None) ->
      resolve_rows (new_Annotation (JsonData (JArr items)) schema1) model heap
      = resolve_rows (new_Annotation (JsonData (JArr items)) schema2)
          model heap)
/\ (forall model row i b e,
      row !! "beg_label_seq_id" = Some (JNum b) ->
      row !! "end_label_seq_id" = Some (JNum e) ->
      (e < b)%Z ->
      covers (spec_getAtomRangesForRow model row tt) i = false)
/\ (forall model row i b e,
      row !! "beg_auth_seq_id" = Some (JNum b) ->
      row !! "end_auth_seq_id" = Some (JNum e) ->
      (e < b)%Z ->
      covers (spec_getAtomRangesForRow model row tt) i = false).
Proof.
split_and!.
- apply getRowsFromJson_no_selector.
- intros items schema1 schema2 model heap Hrows.
  unfold getRowForEachAtom, getRows, new_Annotation. cbn [data schema].
  rewrite !getRowsFromJson_no_selector; [done| |].
  + intros row Hin. destruct (Hrows row Hin) as (members & -> & Hnone).
    exists members. split; [done|]. intros k Hk. apply Hnone. by right.
  + intros row Hin. destruct (Hrows row Hin) as (members & -> & Hnone).
    exists members. split; [done|]. intros k Hk. apply Hnone. by left.
- intros model row i b e Hb He Hlt.
  rewrite (proj2 (spec_matcher_selects model row tt)).
  eapply spec_atomQualifies_empty_range; [by left|done..].
- intros model row i b e Hb He Hlt.
  rewrite (proj2 (spec_matcher_selects model row tt)).
  eapply spec_atomQualifies_empty_range; [by right|done..].
Qed.

End MatcherFacts.

(** Against C9 as stated.  No selection helper makes the row without fields select the atom of a
    one-atom model under [whole-structure] and no atom under [chain]: the
    two calls of the resolver are the same call.  With the helper modelled
    from the spec the row selects the atom under [chain] too. *)
Lemma empty_row_selects_alike :
  ~ (exists (Indices : Type) (createIndicesAndSortings : Model -> Indices)
       (getAtomRangesForRow : Model -> AnnotationRow -> Indices -> AtomRanges)
       (FieldsForSchemas : AnnotationSchema -> list string),
       (getRowForEachAtom FieldsForSchemas Sample.no_columns Sample.no_table
          createIndicesAndSortings getAtomRangesForRow
          (new_Annotation (JsonData Sample.empty_row_json) sch_whole_structure)
          Sample.one_atom []).2 = [[0%Z]]
       /\ (getRowForEachAtom FieldsForSchemas Sample.no_columns Sample.no_table
             createIndicesAndSortings getAtomRangesForRow
             (new_Annotation (JsonData Sample.empty_row_json) sch_chain)
             Sample.one_atom []).2 = [[(-1)%Z]])
  /\ (getRowForEachAtom spec_FieldsForSchemas Sample.no_columns Sample.no_table
        spec_createIndicesAndSortings spec_getAtomRangesForRow
        (new_Annotation (JsonData Sample.empty_row_json) sch_chain)
        Sample.one_atom []).2 = [[0%Z]].
Proof.
  split; [|by vm_compute].
  intros (Indices & createIdx & matcher & fields & Hwhole & Hchain).
  assert (Hsame :
    getRowForEachAtom fields Sample.no_columns Sample.no_table createIdx matcher
      (new_Annotation (JsonData Sample.empty_row_json) sch_whole_structure)
      Sample.one_atom []
    = getRowForEachAtom fields Sample.no_columns Sample.no_table createIdx
        matcher (new_Annotation (JsonData Sample.empty_row_json) sch_chain)
        Sample.one_atom []).
  { unfold getRowForEachAtom, getRows, Sample.empty_row_json, new_Annotation.
    cbn [data schema].
    rewrite !getRowsFromJson_no_selector; [done| |];
      intros row ->%list_elem_of_singleton; by exists []. }
  rewrite Hsame, Hchain in Hwhole. discriminate.
Qed.

(** ** The collection of annotations *)










(** ** Helpers of utils.ts *)

Lemma omitObjectKeys_lookup {V} (obj : gmap string V) omitKeys k :
  omitObjectKeys obj omitKeys !! k
  = if decide (k ∈ omitKeys) then None else obj !! k.
Proof.
  unfold omitObjectKeys. revert obj.
  induction omitKeys as [|key keys IH]; intros obj; cbn [foldl].
  { rewrite decide_False; [done|apply not_elem_of_nil]. }
  rewrite IH. destruct (decide (k ∈ keys)) as [Hin|Hnot].
  - rewrite decide_True; [done|by right].
  - destruct (decide (k = key)) as [->|Hne].
    + rewrite decide_True by (by left). apply lookup_delete_eq.
    + rewrite decide_False by (intros [?|?]%elem_of_cons; done).
      by apply lookup_delete_ne.
Qed.

(** X1.  [pickObjectKeys] and [omitObjectKeys] with the same keys split an
    object in two: the picked part holds the properties under the keys, the
    other part holds the rest, the two share no key, and together they are
    the object.  This is for keys other than [__proto__], or an object
    without an own property of that name: picking assigns, and an
    assignment under [__proto__] adds no property. *)
Theorem pickObjectKeys_omitObjectKeys_split {V} (obj : gmap string V) keys :
  ("__proto__" ∈ keys -> obj !! "__proto__" = None) ->
  exists picked,
    pickObjectKeys (fun key => Ok (obj !! key)) keys = Ok picked
    /\ (forall k, picked !! k = if decide (k ∈ keys) then obj !! k else None)
    /\ (forall k, omitObjectKeys obj keys !! k
                  = if decide (k ∈ keys) then None else obj !! k)
    /\ picked ##ₘ omitObjectKeys obj keys
    /\ picked ∪ omitObjectKeys obj keys = obj.
Proof.
  intros _.
  destruct (pickObjectKeys_loop_lookup (fun key => Ok (obj !! key))
              (fun key => obj !! key) keys ∅) as (picked & Hpicked & Hlookup);
    [done|].
  assert (Hpick : forall k,
            picked !! k = if decide (k ∈ keys) then obj !! k else None).
  { intros k. rewrite Hlookup, lookup_empty. case_decide; [|done].
    by destruct (obj !! k). }
  exists picked. split_and!; [done|done|apply omitObjectKeys_lookup| |].
  - apply map_disjoint_spec. intros k x y. rewrite Hpick, omitObjectKeys_lookup.
    case_decide; done.
  - apply map_eq. intros k. rewrite lookup_union, Hpick, omitObjectKeys_lookup.
    case_decide; by destruct (obj !! k).
Qed.

(** An object with the keys a and b, split at a. *)
Lemma pickObjectKeys_omitObjectKeys_split_witness :
  exists picked,
    pickObjectKeys
      (fun key => Ok ((<["a" := 1%Z]> (<["b" := 2%Z]> ∅) : gmap string Z) !! key))
      ["a"]
    = Ok picked
    /\ picked ∪ omitObjectKeys (<["a" := 1%Z]> (<["b" := 2%Z]> ∅)) ["a"]
       = <["a" := 1%Z]> (<["b" := 2%Z]> ∅).
Proof.
  destruct (pickObjectKeys_omitObjectKeys_split
              (<["a" := 1%Z]> (<["b" := 2%Z]> ∅) : gmap string Z) ["a"])
    as (picked & Hpicked & _ & _ & _ & Hunion).
  - intros Hin%list_elem_of_singleton. discriminate Hin.
  - exists picked. split; [exact Hpicked|exact Hunion].
Defined.

(** X2.  On safe integers, [range(start, end)] with fewer than 2^32
    elements lists the integers from [start] up to, not including, [end],
    in increasing order and each once, and it is empty when [end] is not
    above [start]; from 2^32 elements on it throws the RangeError of
    [Array(length)]; [range(n)] is [range(0, n)]. *)
Theorem range_lists_interval start end_ :
  isSafeInteger start = true -> isSafeInteger end_ = true ->
  ((end_ - start < 4294967296)%Z ->
   exists result,
     range start (Some end_) = Ok result
     /\ List.length result = Z.to_nat (end_ - start)
     /\ (forall i, i < Z.to_nat (end_ - start) ->
           result !! i = Some (start + Z.of_nat i)%Z)
     /\ (forall x, x ∈ result <-> (start <= x < end_)%Z)
     /\ NoDup result
     /\ ((end_ <= start)%Z -> result = []))
  /\ ((4294967296 <= end_ - start)%Z ->
      range start (Some end_) = Throw RangeError)
  /\ range end_ None = range 0 (Some end_).
Proof.
  intros Hstart Hend. unfold range. rewrite Hstart, Hend. cbn [andb negb].
  split_and!.
  - intros Hsmall.
    destruct (Z.leb_spec 4294967296 (Z.max (end_ - start) 0)) as [?|_]; [lia|].
    assert (Hlen : Z.to_nat (Z.max (end_ - start) 0)
                   = Z.to_nat (end_ - start)) by lia.
    rewrite Hlen. eexists. split; [done|]. split_and!.
    + by rewrite length_map, length_seq.
    + intros i Hi. rewrite list_lookup_fmap, lookup_seq_lt by done. done.
    + intros x. rewrite list_elem_of_fmap. split.
      * intros (i & -> & Hi%elem_of_seq). lia.
      * intros Hx. exists (Z.to_nat (x - start)). split; [lia|].
        apply elem_of_seq. lia.
    + apply NoDup_fmap_2; [|apply NoDup_seq]. intros i j Hij. lia.
    + intros Hle. by replace (Z.to_nat (end_ - start)) with 0 by lia.
  - intros Hlarge.
    destruct (Z.leb_spec 4294967296 (Z.max (end_ - start) 0)) as [_|?];
      [done|lia].
  - done.
Qed.

(** The integers from 2 up to 5. *)
Lemma range_lists_interval_witness :
  range 2 (Some 5%Z) = Ok [2%Z; 3%Z; 4%Z].
Proof.
  destruct (range_lists_interval 2 5 eq_refl eq_refl)
    as (Hsmall & _ & _).
  destruct Hsmall as (result & Hrun & _); [reflexivity|].
  rewrite Hrun. f_equal. injection Hrun as <-. reflexivity.
Defined.

(** The loop of [filterInPlace]: what lies below [iDest] afterwards is
    what lay below it before, then the elements from [iSrc] on that
    satisfy the predicate. *)
Lemma filterInPlace_loop_spec {A} (predicate : A -> bool) count iSrc iDest
    (array : list A) :
  iDest <= iSrc -> iSrc + count = List.length array ->
  take (filterInPlace_loop predicate count iSrc iDest array).2
       (filterInPlace_loop predicate count iSrc iDest array).1
  = (take iDest array ++ List.filter predicate (drop iSrc array))%list.
Proof.
  revert iSrc iDest array.
  induction count as [|count IH]; intros iSrc iDest array Hle Hlen.
  { simpl. rewrite drop_ge by lia. by rewrite app_nil_r. }
  cbn [filterInPlace_loop].
  destruct (lookup_lt_is_Some_2 array iSrc) as [x Hx]; [lia|].
  rewrite Hx. rewrite (drop_S _ _ _ Hx). cbn [List.filter].
  destruct (predicate x).
  - rewrite IH by (rewrite ?length_insert; lia).
    rewrite drop_insert_lt by lia.
    rewrite (take_S_r _ _ x) by (apply list_lookup_insert_eq; lia).
    rewrite take_insert_ge by lia. by rewrite <- app_assoc.
  - by rewrite IH by lia.
Qed.

(** X3.  [filterInPlace] leaves in the array the elements that satisfy the
    predicate, in their order, and nothing else: it is [filter], done in
    the array itself. *)
Theorem filterInPlace_is_filter {A} (array : list A) (predicate : A -> bool) :
  filterInPlace array predicate = List.filter predicate array
  /\ List.length (filterInPlace array predicate) <= List.length array
  /\ forall x, x ∈ filterInPlace array predicate
               <-> x ∈ array /\ predicate x = true.
Proof.
  assert (Heq : filterInPlace array predicate = List.filter predicate array).
  { unfold filterInPlace.
    pose proof (filterInPlace_loop_spec predicate (List.length array) 0 0 array)
      as Hloop.
    destruct (filterInPlace_loop predicate (List.length array) 0 0 array)
      as [array' iDest].
    simpl in Hloop. apply Hloop; lia. }
  rewrite Heq. split_and!; [done| |].
  - apply List.filter_length_le.
  - intros x. rewrite !list_elem_of_In. apply filter_In.
Qed.

Lemma prefix_while_take {A} (p : A -> bool) l :
  take (List.length (prefix_while p l)) l = prefix_while p l.
Proof.
  induction l as [|x l IH]; simpl; [done|].
  destruct (p x); simpl; [by rewrite IH|done].
Qed.

(** [n] steps are enough for the loop to come to its end. *)
Lemma advance_spec {A} (p : A -> bool) array fuel stop :
  List.length array - stop <= fuel ->
  advance p array fuel stop
  = stop + List.length (prefix_while p (drop stop array)).
Proof.
  revert stop. induction fuel as [|fuel IH]; intros stop Hfuel; simpl.
  { rewrite drop_ge by lia. simpl. lia. }
  destruct (array !! stop) as [x|] eqn:Hx.
  - rewrite (drop_S _ _ _ Hx). simpl. destruct (p x); [|simpl; lia].
    rewrite IH by lia. simpl. lia.
  - apply lookup_ge_None in Hx. rewrite drop_ge by lia. simpl. lia.
Qed.

Lemma from_first_findIndex {A} (p : A -> bool) array :
  from_first p array
  = match findIndex p array with
    | Some start => drop start array
    | None => []
    end.
Proof.
  induction array as [|x array IH]; simpl; [done|].
  destruct (p x); [done|]. rewrite IH. by destruct (findIndex p array).
Qed.

Lemma slice_advance {A} (p : A -> bool) (array : list A) start :
  slice array start (advance p array (List.length array) start)
  = prefix_while p (drop start array).
Proof.
  unfold slice. rewrite advance_spec by lia.
  replace (start + List.length (prefix_while p (drop start array)) - start)
    with (List.length (prefix_while p (drop start array))) by lia.
  apply prefix_while_take.
Qed.

(** X4.  [takeFromWhile] returns the run of elements satisfying
    [whilePredicate] that starts at the first element satisfying
    [fromPredicate].  It is empty when no element satisfies
    [fromPredicate], and also when the first one that does fails
    [whilePredicate]: later elements satisfying both are not looked for. *)
Theorem takeFromWhile_run {A} (array : list A) (fromPredicate : A -> bool)
    (whilePredicate : A -> bool) :
  takeFromWhile array fromPredicate whilePredicate
  = prefix_while whilePredicate (from_first fromPredicate array)
  /\ Forall (fun x => whilePredicate x = true)
       (takeFromWhile array fromPredicate whilePredicate)
  /\ (Forall (fun x => fromPredicate x = false) array ->
      takeFromWhile array fromPredicate whilePredicate = [])
  /\ (forall before x after,
        array = (before ++ x :: after)%list ->
        Forall (fun y => fromPredicate y = false) before ->
        fromPredicate x = true ->
        takeFromWhile array fromPredicate whilePredicate
        = if whilePredicate x then x :: prefix_while whilePredicate after
          else []).
Proof.
  assert (Heq : takeFromWhile array fromPredicate whilePredicate
                = prefix_while whilePredicate (from_first fromPredicate array)).
  { unfold takeFromWhile. rewrite from_first_findIndex.
    destruct (findIndex fromPredicate array) as [start|]; [|done].
    apply slice_advance. }
  rewrite Heq. clear Heq. split_and!; [done| | |].
  - generalize (from_first fromPredicate array). intros l.
    induction l as [|x l IH]; simpl; [constructor|].
    destruct (whilePredicate x) eqn:Hx; by constructor.
  - intros Hnone. induction Hnone as [|x l Hx _ IH]; simpl; [done|].
    rewrite Hx. exact IH.
  - intros before x after -> Hbefore Hx.
    induction Hbefore as [|y l Hy _ IH]; simpl.
    + rewrite Hx. simpl. by destruct (whilePredicate x).
    + rewrite Hy. exact IH.
Qed.

(** X5.  [takeWhile] returns the run of elements satisfying
    [whilePredicate] that starts at [fromIndex]; it is empty when
    [fromIndex] is at or beyond the end, and the whole rest of the array
    when every element from [fromIndex] on satisfies the predicate. *)
Theorem takeWhile_run {A} (array : list A) (whilePredicate : A -> bool)
    fromIndex :
  takeWhile array whilePredicate fromIndex
  = prefix_while whilePredicate (drop fromIndex array)
  /\ (List.length array <= fromIndex ->
      takeWhile array whilePredicate fromIndex = [])
  /\ (Forall (fun x => whilePredicate x = true) (drop fromIndex array) ->
      takeWhile array whilePredicate fromIndex = drop fromIndex array)
  /\ exists rest,
       drop fromIndex array
       = (takeWhile array whilePredicate fromIndex ++ rest)%list
       /\ match rest with
          | [] => True
          | x :: _ => whilePredicate x = false
          end.
Proof.
  assert (Heq : takeWhile array whilePredicate fromIndex
                = prefix_while whilePredicate (drop fromIndex array))
    by apply slice_advance.
  rewrite Heq. split_and!; [done| | |].
  - intros Hge. by rewrite drop_ge.
  - generalize (drop fromIndex array). intros l Hall.
    induction Hall as [|x l Hx _ IH]; simpl; [done|]. by rewrite Hx, IH.
  - generalize (drop fromIndex array). intros l.
    induction l as [|x l IH]; simpl; [by exists []|].
    destruct (whilePredicate x) eqn:Hx.
    + destruct IH as (rest & Hrest & Hstop). exists rest.
      split; [simpl; by f_equal|done].
    + by exists (x :: l).
Qed.

(** Writing through the reference that was just stored. *)
Lemma write_slot_insert {A} (mem : Arrays A) ref arr i x :
  ref < List.length mem ->
  write_slot (<[ref := arr]> mem) ref i x = <[ref := <[i := x]> arr]> mem.
Proof.
  intros Hlt. unfold write_slot. apply list_eq. intros r.
  destruct (decide (r = ref)) as [->|Hne].
  - rewrite list_lookup_alter_eq, !list_lookup_insert_eq by (rewrite ?length_insert; lia).
    done.
  - rewrite list_lookup_alter_ne by done.
    by rewrite !list_lookup_insert_ne by done.
Qed.

(** The loop of [extend] after [i] elements: the empty slots are filled
    one by one with the elements of the source as it was before the call,
    also when the source is the array being extended. *)
Lemma extend_copy_spec {A} (mem : Arrays A) dst src a b count i :
  mem !! dst = Some a -> mem !! src = Some b ->
  i + count = List.length b ->
  extend_copy dst src (List.length a) i count
    (<[dst := (a ++ take i b ++ replicate count None)%list]> mem)
  = <[dst := (a ++ b)%list]> mem.
Proof.
  intros Hdst Hsrc. revert i.
  induction count as [|count IH]; intros i Hlen.
  { simpl. rewrite take_ge by lia. by rewrite app_nil_r. }
  cbn [extend_copy].
  assert (Hdst_lt : dst < List.length mem) by (by eapply lookup_lt_Some).
  destruct (lookup_lt_is_Some_2 b i) as [x Hx]; [lia|].
  assert (Hread : read_slot
            (<[dst := (a ++ take i b ++ replicate (S count) None)%list]> mem)
            src i = x).
  { unfold read_slot. destruct (decide (src = dst)) as [->|Hne].
    - rewrite list_lookup_insert_eq by done. simpl.
      assert (a = b) as -> by congruence.
      rewrite lookup_app_l by lia. by rewrite Hx.
    - rewrite list_lookup_insert_ne by done. rewrite Hsrc. simpl.
      by rewrite Hx. }
  rewrite Hread, write_slot_insert by done.
  assert (Hins : forall l : list (option A),
            <[i := x]> (take i b ++ l)%list = (take i b ++ <[0 := x]> l)%list).
  { intros l. rewrite <- (insert_app_r (take i b) l 0 x).
    by replace (List.length (take i b) + 0) with i
      by (rewrite length_take; lia). }
  rewrite insert_app_r, Hins. cbn [replicate insert list_insert].
  rewrite <- (IH (S i)) by lia.
  rewrite (take_S_r _ _ _ Hx). by rewrite <- app_assoc.
Qed.

(** X6.  [extend(dst, src)] leaves in [dst] its elements followed by those
    [src] had when the call began, and changes no other array.  This also
    holds when [dst] and [src] are one array, which is then doubled: the
    loop stops after the original length and never reads a slot it wrote. *)
Theorem extend_refs_appends {A} (mem : Arrays A) dst src a b :
  mem !! dst = Some a -> mem !! src = Some b ->
  extend_refs dst src mem = <[dst := extend a b]> mem
  /\ (src = dst -> extend_refs dst src mem !! dst = Some (a ++ a)%list)
  /\ (forall other, other <> dst ->
        extend_refs dst src mem !! other = mem !! other).
Proof.
  intros Hdst Hsrc.
  assert (Hdst_lt : dst < List.length mem) by (by eapply lookup_lt_Some).
  assert (Heq : extend_refs dst src mem = <[dst := extend a b]> mem).
  { unfold extend_refs, extend. rewrite Hdst, Hsrc. cbn [default].
    rewrite <- (extend_copy_spec mem dst src a b (List.length b) 0 Hdst Hsrc)
      by lia.
    f_equal. apply list_eq. intros r.
    destruct (decide (r = dst)) as [->|Hne].
    - rewrite list_lookup_alter_eq, Hdst, list_lookup_insert_eq by done.
      by rewrite take_0.
    - rewrite list_lookup_alter_ne by done.
      by rewrite list_lookup_insert_ne by done. }
  rewrite Heq. split_and!; [done| |].
  - intros ->. rewrite list_lookup_insert_eq by done.
    unfold extend. by assert (a = b) as -> by congruence.
  - intros other Hne. by rewrite list_lookup_insert_ne by done.
Qed.

(** An array with a hole, extended by itself. *)
Lemma extend_refs_appends_witness :
  extend_refs 0 0 [[Some 1%Z; None]; [Some 2%Z]]
  = [[Some 1%Z; None; Some 1%Z; None]; [Some 2%Z]].
Proof.
  exact (proj1 (extend_refs_appends [[Some 1%Z; None]; [Some 2%Z]] 0 0
                  [Some 1%Z; None] [Some 1%Z; None] eq_refl eq_refl)).
Defined.

(** One call of [MultiMap.add], seen from a key. *)
Lemma MultiMap_add_lookup `{Countable K} {V} (key : K) (value : V) this k :
  MultiMap_add key value this !! k
  = if decide (k = key)
    then Some (default [] (this !! k) ++ [value])%list
    else this !! k.
Proof.
  unfold MultiMap_add. case_decide as Hk.
  - subst k. rewrite lookup_alter_eq.
    destruct (this !! key) as [values|] eqn:Hkey.
    + by rewrite Hkey.
    + by rewrite lookup_insert_eq.
  - rewrite lookup_alter_ne by done.
    destruct (this !! key); [done|]. by rewrite lookup_insert_ne.
Qed.

(** X7.  After a sequence of [MultiMap.add] calls on an empty map, a key is
    present exactly when a value was added under it, and it holds the
    values added under it, in the order of the calls: no key holds an empty
    array, and no value is lost or moved to another key. *)
Theorem MultiMap_add_collects `{Countable K} {V} (calls : list (K * V)) k :
  foldl (fun this kv => MultiMap_add kv.1 kv.2 this) ∅ calls !! k
  = match (filter (fun kv => kv.1 = k) calls).*2 with
    | [] => None
    | values => Some values
    end.
Proof.
  assert (Hgen : forall (this : gmap K (list V)),
            foldl (fun this kv => MultiMap_add kv.1 kv.2 this) this calls !! k
            = match this !! k, (filter (fun kv => kv.1 = k) calls).*2 with
              | None, [] => None
              | o, values => Some (default [] o ++ values)%list
              end).
  { induction calls as [|[key value] calls IH]; intros this.
    { simpl. destruct (this !! k); [by rewrite app_nil_r|done]. }
    cbn [foldl fst snd]. rewrite IH, MultiMap_add_lookup, filter_cons.
    cbn [fst]. destruct (decide (key = k)) as [->|Hne].
    - rewrite decide_True by done.
      destruct (this !! k) as [values|]; simpl; [|done].
      by rewrite <- app_assoc.
    - rewrite decide_False by done. done. }
  rewrite Hgen, lookup_empty. by destruct ((filter _ calls).*2).
Qed.

(** X8.  [objectFromKeysAndValues(keys, values)] has as own properties the
    keys of [keys] other than [__proto__]; under such a key it holds the
    value at the position of the key's last occurrence, so a repeated key
    keeps its last value, and a key with no value at its position holds
    [undefined].  It never has an own property [__proto__]. *)
Theorem objectFromKeysAndValues_last_occurrence {V} (keys : list string)
    (values : list V) k :
  objectFromKeysAndValues keys values ∅ !! k
  = if String.eqb k "__proto__" then None
    else (fun i => values !! i) <$> last_match (String.eqb k) keys.
Proof.
  assert (Hgen : forall (values : list V) obj,
            objectFromKeysAndValues keys values obj !! k
            = if String.eqb k "__proto__" then obj !! k
              else match last_match (String.eqb k) keys with
                   | Some i => Some (values !! i)
                   | None => obj !! k
                   end).
  { induction keys as [|k' keys IH]; intros vs obj; simpl.
    { by destruct (String.eqb k "__proto__"). }
    rewrite IH.
    destruct (String.eqb_spec k "__proto__") as [Heq|Hk].
    - destruct (String.eqb_spec k' "__proto__") as [_|Hk']; [done|].
      rewrite lookup_insert_ne; [done|congruence].
    - destruct (last_match (String.eqb k) keys) as [i|].
      + by destruct vs.
      + destruct (String.eqb_spec k k') as [->|Hne].
        * destruct (String.eqb_spec k' "__proto__") as [?|_]; [done|].
          rewrite lookup_insert_eq. by destruct vs.
        * destruct (String.eqb k' "__proto__"); [done|].
          by rewrite lookup_insert_ne. }
  rewrite Hgen, lookup_empty.
  destruct (String.eqb k "__proto__"); [done|].
  by destruct (last_match (String.eqb k) keys).
Qed.

(** ** Validation of parameters *)

Lemma schema_issues_None {V} (schema : list (string * Field V)) values options :
  schema_issues schema values options = None
  <-> Forall (param_in_order values options) schema.
Proof.
  induction schema as [|[key paramDef] schema IH]; simpl.
  { split; [constructor|done]. }
  rewrite Forall_cons, <- IH. unfold param_in_order at 1.
  unfold fieldValidationIssues. cbn [fst snd].
  destruct (assoc key values) as [value|].
  - destruct (type_decode paramDef value); [|tauto].
    split; [done|]. by intros [? _].
  - destruct (required paramDef); [split; [done|by intros [[? _] _]]|].
    destruct (requireAll options); [split; [done|by intros [[_ ?] _]]|].
    tauto.
Qed.

Lemma extra_issues_None {V} (schema : list (string * Field V)) keys :
  extra_issues schema keys = None
  <-> Forall (fun key => key ∈ schema.*1) keys.
Proof.
  induction keys as [|key keys IH]; simpl.
  { split; [constructor|done]. }
  rewrite Forall_cons, <- IH, assoc_is_Some.
  destruct (assoc key schema) as [paramDef|].
  - split; [by split; [eexists|]|tauto].
  - split; [done|]. by intros [[? ?] _].
Qed.

(** X9.  [paramsValidationIssues] reports nothing exactly when every
    parameter of the schema is in order, that is present with a value of
    the field's type, or left out where the field is optional and
    [requireAll] is not set, and, under [noExtra], every key of the values
    is a key of the schema.  A report is never empty. *)
Theorem paramsValidationIssues_accepts_iff {V}
    (schema : list (string * Field V)) values options :
  (paramsValidationIssues schema values options = None
   <-> Forall (param_in_order values options) schema
       /\ (noExtra options = true ->
           Forall (fun key => key ∈ schema.*1) values.*1))
  /\ paramsValidationIssues schema values options <> Some [].
Proof.
  split.
  - unfold paramsValidationIssues. rewrite <- schema_issues_None.
    destruct (schema_issues schema values options) as [issues|].
    { split; [done|]. by intros [? _]. }
    destruct (noExtra options).
    + rewrite extra_issues_None. split; [by split|]. intros [_ Hextra].
      by apply Hextra.
    + split; [by split|done].
  - unfold paramsValidationIssues.
    assert (Hschema : schema_issues schema values options <> Some []).
    { induction schema as [|[key paramDef] schema IH]; simpl; [done|].
      destruct (assoc key values) as [value|].
      - by destruct (fieldValidationIssues paramDef value).
      - destruct (required paramDef); [done|].
        by destruct (requireAll options). }
    destruct (schema_issues schema values options) as [issues|]; [done|].
    destruct (noExtra options); [|done].
    generalize (values.*1). intros keys.
    induction keys as [|key keys IH]; simpl; [done|].
    by destruct (assoc key schema).
Qed.

(** X10.  The options only add requirements: values that pass under some
    options pass under the options that ask for nothing more, and pass
    under those very options with each of the two switched off. *)
Theorem paramsValidationIssues_options_only_add {V}
    (schema : list (string * Field V)) values options :
  paramsValidationIssues schema values options = None ->
  paramsValidationIssues schema values no_options = None
  /\ paramsValidationIssues schema values
       {| requireAll := false; noExtra := noExtra options |} = None
  /\ paramsValidationIssues schema values
       {| requireAll := requireAll options; noExtra := false |} = None.
Proof.
  unfold paramsValidationIssues.
  destruct (schema_issues schema values options) as [issues|] eqn:Hschema;
    [done|].
  intros Hextra.
  apply schema_issues_None in Hschema.
  assert (Hlax : forall o, schema_issues schema values
                   {| requireAll := false; noExtra := o |} = None).
  { intros o. apply schema_issues_None.
    eapply Forall_impl; [exact Hschema|].
    intros [key paramDef]. unfold param_in_order. cbn [fst snd].
    destruct (assoc key values); [done|]. by intros [? _]. }
  assert (Hsame : schema_issues schema values
                    {| requireAll := requireAll options; noExtra := false |}
                  = None).
  { apply schema_issues_None.
    eapply Forall_impl; [exact Hschema|]. by intros [key paramDef]. }
  unfold no_options. rewrite !Hlax, Hsame. cbn [noExtra]. done.
Qed.

(** Values that pass with extra parameters forbidden pass without
    options. *)
Lemma paramsValidationIssues_options_only_add_witness :
  paramsValidationIssues SampleParams.schema SampleParams.values no_options
  = None.
Proof.
  exact (proj1 (paramsValidationIssues_options_only_add
                  SampleParams.schema SampleParams.values
                  {| requireAll := false; noExtra := true |} eq_refl)).
Defined.

(** ** Hexadecimal colour strings *)

Lemma test_Nothing s : test Nothing s = false.
Proof. induction s as [|c s IH]; simpl; done. Qed.

Lemma test_Epsilon s : test Epsilon s = true <-> s = "".
Proof.
  destruct s as [|c s]; simpl; [done|]. rewrite test_Nothing. done.
Qed.

Lemma test_Alt r1 r2 s : test (Alt r1 r2) s = test r1 s || test r2 s.
Proof.
  revert r1 r2. induction s as [|c s IH]; intros r1 r2; simpl; [done|].
  apply IH.
Qed.

(** Two expressions in sequence match the strings that split into a match
    of the first and a match of the second. *)
Lemma test_Seq r1 r2 s :
  test (Seq r1 r2) s = true
  <-> exists s1 s2, s = s1 ++ s2 /\ test r1 s1 = true /\ test r2 s2 = true.
Proof.
  revert r1. induction s as [|c s IH]; intros r1.
  { simpl. rewrite andb_true_iff. split.
    - intros [? ?]. by exists "", "".
    - intros (s1 & s2 & Hsplit & H1 & H2).
      destruct s1; [|done]. destruct s2; [|done]. done. }
  cbn [test derivative].
  destruct (nullable r1) eqn:Hnull.
  - rewrite test_Alt, orb_true_iff, IH. split.
    + intros [(s1 & s2 & -> & H1 & H2)|H2].
      * by exists (String c s1), s2.
      * by exists "", (String c s).
    + intros (s1 & s2 & Hsplit & H1 & H2). destruct s1 as [|c1 s1].
      * right. change (String c s = s2) in Hsplit. by subst s2.
      * left. change (String c s = String c1 (s1 ++ s2)) in Hsplit.
        injection Hsplit as <- ->. by exists s1, s2.
  - rewrite IH. split.
    + intros (s1 & s2 & -> & H1 & H2). by exists (String c s1), s2.
    + intros (s1 & s2 & Hsplit & H1 & H2). destruct s1 as [|c1 s1].
      * simpl in H1. congruence.
      * change (String c s = String c1 (s1 ++ s2)) in Hsplit.
        injection Hsplit as <- ->. by exists s1, s2.
Qed.

Lemma test_Class set s :
  test (Class set) s = true <-> exists c, s = String c "" /\ set c = true.
Proof.
  destruct s as [|c s]; simpl.
  { split; [done|]. by intros (c & ? & _). }
  destruct (set c) eqn:Hc.
  - rewrite test_Epsilon. split; [intros ->; by exists c|].
    by intros (c' & [= -> ->] & _).
  - rewrite test_Nothing. split; [done|].
    intros (c' & [= -> ->] & ?). congruence.
Qed.

(** A class [n] times matches the strings of [n] characters of the class. *)
Lemma test_times_Class set n s :
  test (times n (Class set)) s
  = (String.length s =? n)%nat && forallb set (list_ascii_of_string s).
Proof.
  revert s. induction n as [|n IH]; intros s.
  { destruct s; simpl; [done|]. apply test_Nothing. }
  apply eq_true_iff_eq. cbn [times]. rewrite test_Seq. split.
  - intros (s1 & s2 & -> & (c & -> & Hc)%test_Class & H2).
    rewrite IH in H2. simpl. by rewrite Hc.
  - destruct s as [|c s]; [done|]. simpl.
    intros [Hlen [Hc Hall]%andb_true_iff]%andb_true_iff.
    exists (String c ""), s. rewrite IH.
    split_and!; [done| |by rewrite Hlen, Hall].
    apply test_Class. by exists c.
Qed.

Lemma append_empty_r s : s ++ "" = s.
Proof.
  induction s as [|c s IH]; [done|].
  change (String c (s ++ "") = String c s). by rewrite IH.
Qed.

Lemma test_Seq_Epsilon r s : test (Seq r Epsilon) s = test r s.
Proof.
  apply eq_true_iff_eq. rewrite test_Seq. split.
  - intros (s1 & s2 & -> & H1 & ->%test_Epsilon).
    by rewrite append_empty_r.
  - intros H1. exists s, "". by rewrite append_empty_r.
Qed.

Lemma length_append s1 s2 :
  String.length (s1 ++ s2) = String.length s1 + String.length s2.
Proof.
  induction s1 as [|c s1 IH]; [done|].
  change (S (String.length (s1 ++ s2))
          = S (String.length s1 + String.length s2)). by rewrite IH.
Qed.

Lemma list_ascii_of_string_append s1 s2 :
  list_ascii_of_string (s1 ++ s2)
  = (list_ascii_of_string s1 ++ list_ascii_of_string s2)%list.
Proof.
  induction s1 as [|c s1 IH]; [done|].
  change (c :: list_ascii_of_string (s1 ++ s2)
          = c :: (list_ascii_of_string s1 ++ list_ascii_of_string s2)%list).
  by rewrite IH.
Qed.

(** Under the flag [i], [[0-9A-F]] is the set of hexadecimal digits in
    both cases, and [#] is itself. *)
Lemma ignoreCase_hex c :
  in_range "0" "9" (canonicalize c) || in_range "A" "F" (canonicalize c)
  = hex_digit c.
Proof. by destruct c as [[] [] [] [] [] [] [] []]. Qed.

Lemma ignoreCase_hash c : Ascii.eqb "#" (canonicalize c) = Ascii.eqb c "#".
Proof. by destruct c as [[] [] [] [] [] [] [] []]. Qed.

Lemma test_hash_then r s :
  test (Seq (ignoreCase (Ascii.eqb "#")) r) s
  = match s with
    | String c rest => Ascii.eqb c "#" && test r rest
    | EmptyString => false
    end.
Proof.
  apply eq_true_iff_eq. rewrite test_Seq. unfold ignoreCase. split.
  - intros (s1 & s2 & -> & (c & -> & Hc)%test_Class & H2).
    rewrite ignoreCase_hash in Hc.
    change (Ascii.eqb c "#" && test r s2 = true). by rewrite Hc.
  - destruct s as [|c rest]; [done|]. intros [Hc Hrest]%andb_true_iff.
    exists (String c ""), rest. split_and!; [done| |done].
    apply test_Class. exists c. by rewrite ignoreCase_hash.
Qed.

Lemma test_hex_digits n s :
  test (times n (ignoreCase
                   (fun c => in_range "0" "9" c || in_range "A" "F" c))) s
  = (String.length s =? n)%nat && forallb hex_digit (list_ascii_of_string s).
Proof.
  unfold ignoreCase. rewrite test_times_Class. f_equal.
  induction (list_ascii_of_string s) as [|c l IH]; [done|].
  cbn [forallb]. by rewrite IH, ignoreCase_hex.
Qed.

(** One or two groups of three digits are three or six digits. *)
Lemma test_one_or_two_groups s :
  test (between 1 2
          (times 3 (ignoreCase
                      (fun c => in_range "0" "9" c || in_range "A" "F" c)))) s
  = ((String.length s =? 3)%nat || (String.length s =? 6)%nat)
    && forallb hex_digit (list_ascii_of_string s).
Proof.
  apply eq_true_iff_eq. unfold between. cbn [times at_most Nat.sub].
  rewrite test_Seq. split.
  - intros (s1 & s2 & -> & H1 & H2).
    rewrite test_Seq_Epsilon in H1.
    change (test (times 3 (ignoreCase
              (fun c => in_range "0" "9" c || in_range "A" "F" c))) s1 = true)
      in H1.
    rewrite test_hex_digits in H1.
    apply andb_true_iff in H1 as [Hlen1%Nat.eqb_eq Hall1].
    rewrite test_Alt, test_Seq_Epsilon in H2.
    rewrite length_append, list_ascii_of_string_append, forallb_app, Hall1.
    apply orb_true_iff in H2 as [H2|H2].
    + change (test (times 3 (ignoreCase
                (fun c => in_range "0" "9" c || in_range "A" "F" c))) s2
              = true) in H2.
      rewrite test_hex_digits in H2.
      apply andb_true_iff in H2 as [Hlen2%Nat.eqb_eq Hall2].
      by rewrite Hlen1, Hlen2, Hall2.
    + apply test_Epsilon in H2 as ->. by rewrite Hlen1.
  - intros [Hlen Hall]%andb_true_iff.
    destruct s as [|x [|y [|z rest]]]; try done.
    exists (String x (String y (String z ""))), rest.
    split; [done|].
    cbn [list_ascii_of_string forallb] in Hall.
    apply andb_true_iff in Hall as [Hx [Hy [Hz Hrest]%andb_true_iff]%andb_true_iff].
    rewrite test_Seq_Epsilon, test_Alt, test_Seq_Epsilon.
    change (test (times 3 (ignoreCase
              (fun c => in_range "0" "9" c || in_range "A" "F" c)))
              (String x (String y (String z ""))) = true
            /\ test (times 3 (ignoreCase
                 (fun c => in_range "0" "9" c || in_range "A" "F" c))) rest
               || test Epsilon rest = true).
    rewrite !test_hex_digits. cbn [list_ascii_of_string forallb String.length].
    rewrite Hx, Hy, Hz, Hrest. split; [done|].
    cbn [String.length] in Hlen.
    destruct rest as [|? [|? [|? [|? ?]]]]; done.
Qed.

Lemma isHexColorString_JStr s :
  isHexColorString (JStr s) = hash_and_digits 3 s || hash_and_digits 6 s.
Proof.
  unfold isHexColorString, hexColorRegex.
  rewrite test_hash_then. destruct s as [|c digits]; [done|].
  rewrite test_one_or_two_groups. unfold hash_and_digits.
  destruct (Ascii.eqb c "#"); [|done].
  destruct (String.length digits =? 3)%nat;
    destruct (String.length digits =? 6)%nat;
    destruct (forallb hex_digit (list_ascii_of_string digits)); done.
Qed.

(** X11.  [isHexColorString] accepts exactly the strings made of [#] and
    then three or six hexadecimal digits, in upper or lower case; it
    rejects every other string, one with a line break after the digits
    included, and every value that is not a string. *)
Theorem isHexColorString_three_or_six_digits :
  (forall s,
     isHexColorString (JStr s) = hash_and_digits 3 s || hash_and_digits 6 s)
  /\ (forall str, isHexColorString str = true -> exists s, str = JStr s).
Proof.
  split; [apply isHexColorString_JStr|].
  intros [| | |s| |]; try done. by exists s.
Qed.

(** X12.  The earlier [isHexColorString] accepted [#] and then six
    hexadecimal digits only.  Every value it accepted is still accepted;
    the three-digit form is accepted now and was not. *)
Theorem isHexColorString_extends_earlier :
  (forall s, Earlier.isHexColorString (JStr s) = hash_and_digits 6 s)
  /\ (forall str, Earlier.isHexColorString str = true ->
        isHexColorString str = true)
  /\ (forall s, hash_and_digits 3 s = true ->
        isHexColorString (JStr s) = true
        /\ Earlier.isHexColorString (JStr s) = false).
Proof.
  assert (Hearlier : forall s,
            Earlier.isHexColorString (JStr s) = hash_and_digits 6 s).
  { intros s. unfold Earlier.isHexColorString, Earlier.hexColorRegex.
    rewrite test_hash_then. destruct s as [|c digits]; [done|].
    rewrite test_hex_digits. unfold hash_and_digits.
    by rewrite andb_assoc. }
  pose proof isHexColorString_JStr as Hnow.
  split_and!; [done| |].
  - intros [| | |s| |]; try done. rewrite Hearlier, Hnow. intros ->.
    apply orb_true_r.
  - intros s H3. rewrite Hearlier, Hnow, H3. split; [done|].
    destruct s as [|c digits]; [done|]. unfold hash_and_digits in *.
    destruct (String.length digits =? 3)%nat eqn:Hlen.
    + apply Nat.eqb_eq in Hlen. rewrite Hlen. simpl.
      by rewrite andb_false_r.
    + by rewrite andb_false_r in H3.
Qed.

(** ** Rows of a JSON array of objects *)

(** Reading own properties of a value that is not [null] does not throw,
    so picking keys of it gives an object. *)
Lemma pickObjectKeys_not_null row keys :
  row <> JNull ->
  exists picked,
    pickObjectKeys (js_get row) keys = Ok picked
    /\ forall k, picked !! k
         = if decide (k ∈ keys)
           then match js_get row k with
                | Ok (Some v) => Some v
                | _ => None
                end
           else None.
Proof.
  intros Hrow. unfold pickObjectKeys.
  destruct (pickObjectKeys_loop_lookup (js_get row)
              (fun k => match js_get row k with
                        | Ok o => o
                        | _ => None
                        end) keys ∅) as (picked & Hpicked & Hlookup).
  { intros key _. by destruct (js_get_not_null row key Hrow) as [o ->]. }
  exists picked. split; [done|]. intros k. rewrite Hlookup, lookup_empty.
  case_decide; [|done].
  by destruct (js_get_not_null row k Hrow) as [[v|] ->].
Qed.

Lemma pickObjectKeys_null key keys :
  pickObjectKeys (js_get JNull) (key :: keys) = Throw TypeError.
Proof. done. Qed.

Section RowsFromJsonArray.

Variable FieldsForSchemas : AnnotationSchema -> list string.

(** X13.  On a JSON array without [null], [getRowsFromJson] returns one
    row per element, in order, and the row of an object holds the fields
    of the schema that the object has, with the object's values, and
    nothing else.  A [null] element makes it throw a TypeError, unless
    the schema has no field: then every element, [null] included, gives
    the empty row. *)
Theorem getRowsFromJson_array_of_objects schema items :
  (JNull ∉ items ->
   exists rows,
     getRowsFromJson FieldsForSchemas (JArr items) schema = Ok rows
     /\ List.length rows = List.length items
     /\ forall i members, items !! i = Some (JObj members) ->
          exists row, rows !! i = Some row
            /\ forall k, row !! k
                 = if decide (k ∈ FieldsForSchemas schema)
                   then assoc k members
                   else None)
  /\ (JNull ∈ items -> FieldsForSchemas schema <> [] ->
      getRowsFromJson FieldsForSchemas (JArr items) schema = Throw TypeError)
  /\ (FieldsForSchemas schema = [] ->
      getRowsFromJson FieldsForSchemas (JArr items) schema
      = Ok (replicate (List.length items) ∅)).
Proof.
  unfold getRowsFromJson. split_and!.
  - induction items as [|item items IH]; intros Hnot.
    { exists []. by split_and!. }
    apply not_elem_of_cons in Hnot as [Hitem Hnot].
    destruct (IH Hnot) as (rows & Hrows & Hlen & Hrow).
    destruct (pickObjectKeys_not_null item (FieldsForSchemas schema))
      as (picked & Hpicked & Hlookup); [done|].
    exists (picked :: rows). cbn [mapR]. rewrite Hpicked, Hrows.
    split_and!; [done|by simpl; rewrite Hlen|].
    intros [|i] members; simpl.
    + intros [= ->]. exists picked. split; [done|]. intros k.
      rewrite Hlookup. case_decide; [|done].
      rewrite js_get_member. by destruct (assoc k members).
    + apply Hrow.
  - intros Hin Hfields.
    destruct (FieldsForSchemas schema) as [|key keys]; [done|]. clear Hfields.
    induction items as [|item items IH]; [by apply elem_of_nil in Hin|].
    cbn [mapR].
    assert (Hcases : item = JNull \/ item <> JNull)
      by (destruct item; (by left) || (by right)).
    destruct Hcases as [->|Hitem].
    + by rewrite pickObjectKeys_null.
    + destruct (pickObjectKeys_not_null item (key :: keys) Hitem)
        as (picked & -> & _).
      apply elem_of_cons in Hin as [?|Hin]; [done|].
      by rewrite (IH Hin).
  - intros ->. induction items as [|item items IH]; [done|].
    cbn [mapR replicate List.length]. by rewrite IH.
Qed.

End RowsFromJsonArray.

(** ** The two layouts of a JSON source *)

Section JsonLayouts.

Variable FieldsForSchemas : AnnotationSchema -> list string.

(** Rows of an array of objects. *)
Lemma getRowsFromJson_objects schema (objects : list (list (string * Json))) :
  exists rows,
    getRowsFromJson FieldsForSchemas (JArr (JObj <$> objects)) schema = Ok rows
    /\ List.length rows = List.length objects
    /\ forall i members, objects !! i = Some members ->
         exists row, rows !! i = Some row
           /\ forall k, row !! k
                = if decide (k ∈ FieldsForSchemas schema)
                  then assoc k members
                  else None.
Proof.
  unfold getRowsFromJson.
  induction objects as [|members objects IH].
  { exists []. by split_and!. }
  destruct IH as (rows & Hrows & Hlen & Hrow).
  destruct (pickObjectKeys_not_null (JObj members) (FieldsForSchemas schema))
    as (picked & Hpicked & Hlookup); [done|].
  exists (picked :: rows). cbn [fmap list_fmap mapR].
  rewrite Hpicked. fold (fmap (M:=list) JObj objects). rewrite Hrows.
  split_and!; [done|by simpl; rewrite Hlen|].
  intros [|i] members'; simpl.
  - intros [= ->]. exists picked. split; [done|]. intros k.
    rewrite Hlookup. case_decide; [|done].
    rewrite js_get_member. by destruct (assoc k members').
  - apply Hrow.
Qed.

(** Rows of an object of arrays whose columns for the fields of the schema
    are arrays of one length, when there is such a column. *)
Lemma getRowsFromJson_columns schema columns n :
  (forall k, k ∈ FieldsForSchemas schema ->
     match assoc k columns with
     | Some c => exists items, c = JArr items /\ List.length items = n
     | None => True
     end) ->
  (exists k, k ∈ FieldsForSchemas schema /\ is_Some (assoc k columns)) ->
  exists rows,
    getRowsFromJson FieldsForSchemas (JObj columns) schema = Ok rows
    /\ List.length rows = n
    /\ forall i, i < n ->
         exists row, rows !! i = Some row
           /\ forall k, row !! k
                = if decide (k ∈ FieldsForSchemas schema)
                  then match assoc k columns with
                       | Some (JArr items) => items !! i
                       | _ => None
                       end
                  else None.
Proof.
  intros Hcolumns (k & Hk & Hsome).
  set (keys := filter (fun key => key ∈ FieldsForSchemas schema) columns.*1).
  assert (Hkeys : forall key, key ∈ keys <->
            key ∈ FieldsForSchemas schema /\ is_Some (assoc key columns)).
  { intros key. unfold keys. rewrite list_elem_of_filter, assoc_is_Some.
    tauto. }
  assert (Hcolumn : forall key, key ∈ keys ->
            exists items, assoc key columns = Some (JArr items)
                          /\ List.length items = n).
  { intros key [Hwanted [c Hc]]%Hkeys. specialize (Hcolumns key Hwanted).
    rewrite Hc in Hcolumns. destruct Hcolumns as (items & -> & Hlen).
    by exists items. }
  assert (Hin : k ∈ keys) by (by apply Hkeys).
  destruct keys as [|key0 rest] eqn:Hsplit; [by apply elem_of_nil in Hin|].
  destruct (Hcolumn key0) as (items0 & Hcol0 & Hlen0); [by left|].
  assert (Hsame : someR (fun key =>
                    c ← js_get (JObj columns) key;
                    if column_modelled c
                    then len ← js_length c;
                         Ok (strict_neq key key0 len
                               (Some (JNum (Z.of_nat n))))
                    else Unmodelled) (key0 :: rest)
                  = Ok false).
  { erewrite someR_existsb with (p := fun _ => false).
    - f_equal. generalize (key0 :: rest). intros l.
      by induction l as [|key l IH].
    - intros key (items & Hcol & Hlen)%Hcolumn.
      rewrite js_get_member, Hcol. cbn [mbind Result_bind column_modelled js_length].
      rewrite js_get_length. cbn [mbind Result_bind strict_neq].
      by rewrite Hlen, Z.eqb_refl. }
  assert (Hitem : forall i, i < n ->
            exists row,
              build_item (JObj columns) (key0 :: rest) i ∅ = Ok row
              /\ forall k', row !! k'
                   = if decide (k' ∈ FieldsForSchemas schema)
                     then match assoc k' columns with
                          | Some (JArr items) => items !! i
                          | _ => None
                          end
                     else None).
  { intros i Hi.
    destruct (build_item_columns columns (key0 :: rest) i ∅)
      as (row & Hrow & Hlookup).
    - intros key (items & Hcol & Hlen)%Hcolumn. exists items. split; [done|lia].
    - exists row. split; [done|]. intros k'. rewrite Hlookup, lookup_empty.
      destruct (decide (k' ∈ key0 :: rest)) as [Hk'|Hk'].
      + apply Hkeys in Hk' as [Hw _]. by rewrite decide_True.
      + case_decide as Hw; [|done].
        destruct (assoc k' columns) as [c|] eqn:Hc; [|done].
        exfalso. apply Hk', Hkeys. by eauto. }
  destruct (mapR_all_Ok (fun i => build_item (JObj columns) (key0 :: rest) i ∅)
              (seq 0 n)) as [rows Hrows].
  { intros i Hi%elem_of_seq. destruct (Hitem i) as (row & Hrow & _); [lia|].
    by exists row. }
  exists rows.
  assert (Hrun : getRowsFromJson FieldsForSchemas (JObj columns) schema
                 = Ok rows).
  { unfold getRowsFromJson, Object_keys.
    cbn [own_members fmap Result_fmap mbind Result_bind]. fold keys.
    rewrite Hsplit, js_get_member, Hcol0. cbn [mbind Result_bind js_length].
    rewrite js_get_length. cbn [mbind Result_bind]. rewrite Hlen0, Hsame.
    cbn [mbind Result_bind loop_bound]. by rewrite Nat2Z.id. }
  split; [done|].
  split; [by rewrite (mapR_Ok_length _ _ _ Hrows), length_seq|].
  intros i Hi.
  destruct (mapR_Ok_lookup _ _ _ i i Hrows) as (row & Hrow & Hbuilt).
  { by rewrite lookup_seq_lt. }
  exists row. split; [done|].
  destruct (Hitem i Hi) as (row' & Hbuilt' & Hlookup).
  by assert (row' = row) as -> by congruence.
Qed.

(** X19.  The two layouts of a JSON source give the same rows: when the
    object of arrays holds, for each field of the schema, the column of
    the values the objects of the array have under that field, or no
    column where no object has the field, and at least one field of the
    schema has a column, [getRowsFromJson] returns the same rows for both.
    Without any such column the layouts differ: the object of arrays
    gives no row, the array of objects one empty row per object. *)
Theorem json_layouts_agree schema
    (objects : list (list (string * Json))) columns :
  (forall k, k ∈ FieldsForSchemas schema ->
     match assoc k columns with
     | Some c =>
         exists items, c = JArr items
           /\ List.length items = List.length objects
           /\ forall i members, objects !! i = Some members ->
                assoc k members = items !! i
     | None => forall members, members ∈ objects -> assoc k members = None
     end) ->
  ((exists k, k ∈ FieldsForSchemas schema /\ is_Some (assoc k columns)) ->
   getRowsFromJson FieldsForSchemas (JObj columns) schema
   = getRowsFromJson FieldsForSchemas (JArr (JObj <$> objects)) schema)
  /\ ((forall k, k ∈ FieldsForSchemas schema -> assoc k columns = None) ->
      getRowsFromJson FieldsForSchemas (JObj columns) schema = Ok []
      /\ getRowsFromJson FieldsForSchemas (JArr (JObj <$> objects)) schema
         = Ok (replicate (List.length objects) ∅)).
Proof.
  intros Hsame. split.
  - intros Hsome.
    destruct (getRowsFromJson_columns schema columns (List.length objects))
      as (rows1 & -> & Hlen1 & Hrow1); [|done|].
    { intros k Hk. specialize (Hsame k Hk).
      destruct (assoc k columns); [|done].
      destruct Hsame as (items & -> & Hlen & _). by exists items. }
    destruct (getRowsFromJson_objects schema objects)
      as (rows2 & -> & Hlen2 & Hrow2).
    f_equal. apply list_eq. intros i.
    destruct (objects !! i) as [members|] eqn:Hi.
    + destruct (Hrow1 i) as (row1 & -> & Hlookup1);
        [by eapply lookup_lt_Some|].
      destruct (Hrow2 i members Hi) as (row2 & -> & Hlookup2).
      f_equal. apply map_eq. intros k. rewrite Hlookup1, Hlookup2.
      case_decide as Hk; [|done]. specialize (Hsame k Hk).
      destruct (assoc k columns) as [c|].
      * destruct Hsame as (items & -> & _ & Hvalues).
        by rewrite (Hvalues i members Hi).
      * symmetry. apply Hsame. by eapply list_elem_of_lookup_2.
    + apply lookup_ge_None in Hi.
      rewrite !(proj2 (lookup_ge_None _ _)) by lia. done.
  - intros Hnone. split.
    + unfold getRowsFromJson, Object_keys.
      cbn [own_members fmap Result_fmap mbind Result_bind].
      destruct (filter _ columns.*1) as [|key0 rest] eqn:Hkeys; [done|].
      assert (Hin : key0 ∈ filter (fun key => key ∈ FieldsForSchemas schema)
                             columns.*1) by (rewrite Hkeys; by left).
      apply list_elem_of_filter in Hin as [Hw [c Hc]%assoc_is_Some].
      rewrite (Hnone key0 Hw) in Hc. done.
    + rewrite <- (length_fmap JObj objects).
      apply getRowsFromJson_no_selector.
      intros row (members & -> & Hin)%list_elem_of_fmap.
      exists members. split; [done|]. intros k Hk.
      specialize (Hsame k Hk). rewrite (Hnone k Hk) in Hsame.
      by apply Hsame.
Qed.

End JsonLayouts.

(** The sample rows in both layouts. *)
Lemma json_layouts_agree_witness :
  getRowsFromJson spec_FieldsForSchemas Sample.columns_json sch_residue_range
  = getRowsFromJson spec_FieldsForSchemas Sample.ranges_json sch_residue_range.
Proof.
  refine (proj1 (json_layouts_agree spec_FieldsForSchemas sch_residue_range
                   [ [("label_asym_id", JStr "A"); ("beg_label_seq_id", JNum 10);
                      ("end_label_seq_id", JNum 20); ("color", JStr "red")];
                     [("label_asym_id", JStr "A"); ("beg_label_seq_id", JNum 15);
                      ("end_label_seq_id", JNum 15); ("color", JStr "blue")] ]
                   _ _) _).
  - intros k Hk. cbn [spec_FieldsForSchemas] in Hk.
    repeat (apply elem_of_cons in Hk as [->|Hk]);
      [..|by apply elem_of_nil in Hk]; cbn.
    + intros members Hin.
      repeat (apply elem_of_cons in Hin as [->|Hin]);
        [..|by apply elem_of_nil in Hin]; reflexivity.
    + eexists. split_and!; [reflexivity..|].
      intros [|[|i]] members; [intros [= <-]; reflexivity..|discriminate].
    + eexists. split_and!; [reflexivity..|].
      intros [|[|i]] members; [intros [= <-]; reflexivity..|discriminate].
    + eexists. split_and!; [reflexivity..|].
      intros [|[|i]] members; [intros [= <-]; reflexivity..|discriminate].
  - exists "label_asym_id". split; [|by eexists].
    cbn [spec_FieldsForSchemas]. apply elem_of_cons. right. by left.
Defined.

(** ** Queries on rows that fail, and repeated queries *)

Section QueryFacts.

Context {ColumnSchema : Type}.
Variable FieldsForSchemas : AnnotationSchema -> list string.
Variable CIFAnnotationSchema : gmap string ColumnSchema.
Variable toTable : gmap string ColumnSchema -> CifCategory -> Table.
Context {Indices : Type}.
Variable createIndicesAndSortings : Model -> Indices.
Variable getAtomRangesForRow : Model -> AnnotationRow -> Indices -> AtomRanges.

Local Abbreviation rows_of :=
  (getRows FieldsForSchemas CIFAnnotationSchema toTable).
Local Abbreviation indexed_model :=
  (getIndexedModel FieldsForSchemas CIFAnnotationSchema toTable
     createIndicesAndSortings getAtomRangesForRow).
Local Abbreviation later :=
  (after_queries FieldsForSchemas CIFAnnotationSchema toTable
     createIndicesAndSortings getAtomRangesForRow).

(** A query on rows that fail rethrows and stores nothing. *)
Lemma getIndexedModel_failing this e model heap :
  rows_of this = Throw e ->
  indexedModels this !! model_id model = None ->
  indexed_model this model heap
  = (Throw e, this,
     (heap ++ [replicate (atoms_rowCount model) (-1)%Z])%list).
Proof.
  intros Hrows Hmiss. unfold getIndexedModel, getRowForEachAtom.
  by rewrite Hmiss, Hrows.
Qed.

Lemma after_queries_failing this e models heap :
  rows_of this = Throw e -> (later models (this, heap)).1 = this.
Proof.
  intros Hrows. revert heap.
  induction models as [|m models IH]; intros heap; [done|].
  unfold after_queries. simpl.
  destruct (indexedModels this !! model_id m) as [ref|] eqn:Hkey.
  - rewrite (getIndexedModel_hit _ _ _ _ _ _ _ _ _ Hkey). apply IH.
  - rewrite (getIndexedModel_failing _ _ _ _ Hrows Hkey). apply IH.
Qed.

(** X14.  An annotation whose rows fail to parse caches nothing: after any
    queries the object is as it was, and a query for a model that was not
    cached beforehand throws the error of the parse again, every time. *)
Theorem failing_rows_are_not_cached this e model heap :
  rows_of this = Throw e ->
  indexedModels this !! model_id model = None ->
  forall models,
    let st := later models (this, heap) in
    st.1 = this
    /\ exists heap', indexed_model st.1 model st.2 = (Throw e, this, heap').
Proof.
  intros Hrows Hmiss models st.
  assert (Hsame : st.1 = this) by (by apply after_queries_failing with e).
  split; [done|]. rewrite Hsame.
  rewrite (getIndexedModel_failing _ _ _ _ Hrows Hmiss). by eexists.
Qed.

(** X16.  On rows that parse, a query for a location that follows another
    query for that location, for the same or another field, returns what
    it would have returned as the first query, and changes neither the
    object nor the arrays: the rows are resolved once. *)
Theorem getValueForLocation_again this loc fieldName heap rows r this1 heap1 :
  getRows FieldsForSchemas CIFAnnotationSchema toTable this = Ok rows ->
  getValueForLocation FieldsForSchemas CIFAnnotationSchema toTable
    createIndicesAndSortings getAtomRangesForRow this loc fieldName heap
  = (r, this1, heap1) ->
  forall fieldName',
    getValueForLocation FieldsForSchemas CIFAnnotationSchema toTable
      createIndicesAndSortings getAtomRangesForRow this1 loc fieldName' heap1
    = ((getValueForLocation FieldsForSchemas CIFAnnotationSchema toTable
          createIndicesAndSortings getAtomRangesForRow
          this loc fieldName' heap).1.1, this1, heap1).
Proof.
  intros Hrows Hfirst fieldName'. revert Hfirst.
  unfold getValueForLocation.
  destruct (indexedModels this !! model_id (loc_model loc)) as [ref|] eqn:Hkey.
  - rewrite (getIndexedModel_hit _ _ _ _ _ _ _ _ _ Hkey).
    destruct (heap !! ref ≫= _) as [iRow|] eqn:HiRow; intros [= <- <- <-];
      rewrite (getIndexedModel_hit _ _ _ _ _ _ _ _ _ Hkey), HiRow; done.
  - destruct (getIndexedModel_miss FieldsForSchemas CIFAnnotationSchema toTable
                createIndicesAndSortings getAtomRangesForRow
                this (loc_model loc) heap rows Hkey Hrows) as [result ->].
    set (this' := {| data := data this; schema := schema this;
                     indexedModels := _ |}).
    assert (Hhit : indexedModels this' !! model_id (loc_model loc)
                   = Some (List.length heap)) by apply lookup_insert_eq.
    assert (Hnew : (heap ++ [result])%list !! List.length heap = Some result)
      by (by apply list_lookup_middle).
    unfold Heap in *. rewrite Hnew. cbn [mbind option_bind].
    destruct (result !! loc_element loc) as [iRow|] eqn:HiRow;
      intros [= <- <- <-];
      rewrite (getIndexedModel_hit _ _ _ _ _ _ _ _ _ Hhit), Hnew;
      cbn [mbind option_bind]; by rewrite HiRow.
Qed.

End QueryFacts.

(** The rows of the sample with columns of two lengths fail, and every
    query rethrows. *)
Lemma failing_rows_are_not_cached_witness :
  exists heap',
    getIndexedModel spec_FieldsForSchemas Sample.no_columns Sample.no_table
      spec_createIndicesAndSortings spec_getAtomRangesForRow
      (new_Annotation (JsonData Sample.mismatched_json) sch_residue_range)
      Sample.model []
    = (Throw (Error "FormatError: arrays must have the same length."),
       new_Annotation (JsonData Sample.mismatched_json) sch_residue_range,
       heap').
Proof.
  exact (proj2 (failing_rows_are_not_cached
                  spec_FieldsForSchemas Sample.no_columns Sample.no_table
                  spec_createIndicesAndSortings spec_getAtomRangesForRow
                  (new_Annotation (JsonData Sample.mismatched_json)
                     sch_residue_range)
                  (Error "FormatError: arrays must have the same length.")
                  Sample.model [] eq_refl eq_refl [])).
Defined.

(** On the sample, the colour of the first atom is read twice. *)
Lemma getValueForLocation_again_witness :
  let loc := {| loc_model := Sample.model; loc_element := 0 |} in
  exists this1 heap1,
    getValueForLocation spec_FieldsForSchemas Sample.no_columns
      Sample.no_table spec_createIndicesAndSortings spec_getAtomRangesForRow
      Sample.ranges_annotation loc "color" []
    = (Ok (Some (JStr "red")), this1, heap1)
    /\ getValueForLocation spec_FieldsForSchemas Sample.no_columns
         Sample.no_table spec_createIndicesAndSortings
         spec_getAtomRangesForRow this1 loc "color" heap1
       = (Ok (Some (JStr "red")), this1, heap1).
Proof.
  intros loc. eexists _, _. split; [vm_compute; reflexivity|].
  exact (getValueForLocation_again
           spec_FieldsForSchemas Sample.no_columns Sample.no_table
           spec_createIndicesAndSortings spec_getAtomRangesForRow
           Sample.ranges_annotation loc "color" [] _ _ _ _
           sample_rows eq_refl "color").
Defined.

(** ** Loading: keys, awaited objects, and the whole of [fromSpecs] *)

(** X17.  The key of a source identifies it: two sources have the same key
    only if they have the same url and the same format, whatever colons
    the urls contain. *)
Theorem source_key_identifies_source u f u' f' :
  source_key u f = source_key u' f' <-> u = u' /\ f = f'.
Proof.
  split; [apply source_key_inj|]. by intros [-> ->].
Qed.

Lemma assoc_lookup {V} key (v : V) members :
  assoc key members = Some v -> exists i, members !! i = Some (key, v).
Proof.
  induction members as [|[k x] members IH]; simpl; [done|].
  destruct (String.eqb_spec k key) as [->|Hne].
  - intros [= ->]. by exists 0.
  - intros [i Hi]%IH. by exists (S i).
Qed.

(** [Promise.all] fulfils with the values of its promises, in order, or
    rejects as one of them does. *)
Lemma Promise_all_outcome {A} (promises : list (Promise A)) :
  match Promise_all promises with
  | Ok results => Forall2 (fun p a => settled p = Ok a) promises results
  | Throw e => exists p, p ∈ promises /\ settled p = Throw e
  | Unmodelled => exists p, p ∈ promises /\ settled p = Unmodelled
  end.
Proof.
  induction promises as [|p promises IH]; simpl; [constructor|].
  destruct (settled p) as [a|e|] eqn:Hp.
  - destruct (Promise_all promises) as [results|e|]; simpl.
    + by constructor.
    + destruct IH as (p' & Hin & Hp'). exists p'. split; [by right|done].
    + destruct IH as (p' & Hin & Hp'). exists p'. split; [by right|done].
  - exists p. split; [by left|done].
  - exists p. split; [by left|done].
Qed.

(** No assignment adds an own property [__proto__]. *)
Lemma objectFromKeysAndValues_proto {V} keys (values : list V) obj :
  objectFromKeysAndValues keys values obj !! "__proto__" = obj !! "__proto__".
Proof.
  revert values obj. induction keys as [|k keys IH]; intros vs obj; simpl;
    [done|].
  rewrite IH. destruct (String.eqb_spec k "__proto__") as [_|Hk]; [done|].
  by rewrite lookup_insert_ne.
Qed.

(** X18.  [promiseAllObj] fulfils exactly when every promise of the object
    fulfils, with an object that holds under each key of the object, the
    key [__proto__] apart, the value of that key's promise, and has no
    other own property, none under [__proto__] either; otherwise it rejects
    as one of the promises does. *)
Theorem promiseAllObj_same_keys {A} (promisesObj : list (string * Promise A)) :
  NoDup promisesObj.*1 ->
  match promiseAllObj promisesObj with
  | Ok obj =>
      (forall key p, assoc key promisesObj = Some p ->
         exists a, settled p = Ok a
           /\ obj !! key
              = if String.eqb key "__proto__" then None else Some (Some a))
      /\ (forall key, assoc key promisesObj = None -> obj !! key = None)
  | Throw e => exists p, p ∈ promisesObj.*2 /\ settled p = Throw e
  | Unmodelled => exists p, p ∈ promisesObj.*2 /\ settled p = Unmodelled
  end.
Proof.
  intros Hnodup. unfold promiseAllObj.
  pose proof (Promise_all_outcome promisesObj.*2) as Hall.
  destruct (Promise_all promisesObj.*2) as [results|e|]; simpl; [|done..].
  split.
  - intros key p [i Hi]%assoc_lookup.
    assert (Hp : promisesObj.*2 !! i = Some p)
      by (by rewrite list_lookup_fmap, Hi).
    destruct (Forall2_lookup_l _ _ _ _ _ Hall Hp) as (a & Ha & Hsettled).
    exists a. split; [done|].
    destruct (String.eqb_spec key "__proto__") as [->|Hkey].
    + by rewrite objectFromKeysAndValues_proto, lookup_empty.
    + rewrite (objectFromKeysAndValues_lookup _ _ _ i) by
        (done || by rewrite list_lookup_fmap, Hi).
      by rewrite Ha.
  - intros key Hnone. rewrite objectFromKeysAndValues_other; [done|].
    intros [v Hv]%assoc_is_Some. congruence.
Qed.

(** The loop of [fromSpecs] on files that are there: it issues no request,
    and it comes to its end exactly when every spec builds. *)
Lemma fromSpecs_loop_run ctx specs files dict issued :
  (forall i spec, specs !! i = Some spec ->
     exists file, files !! i = Some (Some file)
       /\ file_of_source ctx (spec_url spec, spec_format spec) = Ok file) ->
  (fromSpecs_loop ctx specs files dict issued).2 = issued
  /\ ((exists dict', (fromSpecs_loop ctx specs files dict issued).1 = Ok dict')
      <-> forall spec, spec ∈ specs ->
            exists file a,
              file_of_source ctx (spec_url spec, spec_format spec) = Ok file
              /\ fromSpec_switch spec file = Ok a).
Proof.
  revert files dict.
  induction specs as [|spec specs IH]; intros files dict Hfiles.
  { split; [done|]. split; [by intros _ spec ?%elem_of_nil|by eexists]. }
  destruct (Hfiles 0 spec eq_refl) as (file & Hhead & Hfile).
  destruct files as [|file0 files]; [done|]. simpl in Hhead.
  injection Hhead as ->.
  assert (Hrest : forall i spec', specs !! i = Some spec' ->
            exists file', files !! i = Some (Some file')
              /\ file_of_source ctx (spec_url spec', spec_format spec')
                 = Ok file').
  { intros i spec' Hi. exact (Hfiles (S i) spec' Hi). }
  assert (Hstep : fromSpecs_loop ctx (spec :: specs) (Some file :: files)
                    dict issued
                  = match fromSpec_switch spec file with
                    | Ok a =>
                        fromSpecs_loop ctx specs files
                          (dict_set (spec_id spec) a dict) issued
                    | Throw e => (Throw e, issued)
                    | Unmodelled => (Unmodelled, issued)
                    end).
  { cbn [fromSpecs_loop head tail mjoin option_join].
    unfold mbind, Async_bind. rewrite fromSpec_given.
    by destruct (fromSpec_switch spec file). }
  rewrite Hstep. clear Hstep.
  destruct (fromSpec_switch spec file) as [a|e|] eqn:Hbuild.
  - destruct (IH files (dict_set (spec_id spec) a dict) Hrest) as [Hreq Hiff].
    split; [done|]. rewrite Hiff. split.
    + intros Hall spec' [->|Hin]%elem_of_cons; [by eauto|by apply Hall].
    + intros Hall spec' Hin. apply Hall. by right.
  - split; [done|]. split; [by intros [? ?]|].
    intros Hall. destruct (Hall spec) as (file' & a & Hfile' & Ha); [by left|].
    congruence.
  - split; [done|]. split; [by intros [? ?]|].
    intros Hall. destruct (Hall spec) as (file' & a & Hfile' & Ha); [by left|].
    congruence.
Qed.

(** X15.  [Annotations.fromSpecs] returns exactly when the file of every
    spec loads and every spec builds an Annotation from its file.  Whether
    it returns or throws, the requests it issues are those of the distinct
    sources of the specs, one each: building the Annotations issues none. *)
Theorem fromSpecs_returns_iff ctx specs issued :
  ((exists dict, (fromSpecs ctx specs issued).1 = Ok dict)
   <-> forall spec, spec ∈ specs ->
         exists file a,
           file_of_source ctx (spec_url spec, spec_format spec) = Ok file
           /\ fromSpec_switch spec file = Ok a)
  /\ (fromSpecs ctx specs issued).2
     = (issued ++ map request_of (distinct_sources specs))%list.
Proof.
  unfold fromSpecs, mbind, Async_bind.
  pose proof (getFileFromSources_aligned ctx specs issued) as Haligned.
  pose proof (getFileFromSources_run ctx specs issued) as Hrun.
  destruct (getFileFromSources ctx specs issued) as [[files|e|] issued1]
    eqn:Hfiles.
  - destruct (Haligned files eq_refl) as [_ Hfile].
    destruct (fromSpecs_loop_run ctx specs files empty_dict issued1 Hfile)
      as [Hreq Hiff].
    split; [done|]. rewrite Hreq. by injection Hrun as _ ->.
  - split; [|by injection Hrun as _ ->].
    split; [by intros [? ?]|]. intros Hall. exfalso.
    destruct (mapR_all_Ok (file_of_source ctx) (distinct_sources specs))
      as [results Hresults].
    { intros s (src & Hsrc & ->)%distinct_sources_spec.
      destruct (Hall src Hsrc) as (file & _ & Hfile & _). by exists file. }
    rewrite Hresults in Hrun. done.
  - split; [|by injection Hrun as _ ->].
    split; [by intros [? ?]|]. intros Hall. exfalso.
    destruct (mapR_all_Ok (file_of_source ctx) (distinct_sources specs))
      as [results Hresults].
    { intros s (src & Hsrc & ->)%distinct_sources_spec.
      destruct (Hall src Hsrc) as (file & _ & Hfile & _). by exists file. }
    rewrite Hresults in Hrun. done.
Qed.

(** Two promises that fulfil. *)
Lemma promiseAllObj_same_keys_witness :
  exists obj,
    promiseAllObj [("a", {| promise_id := 0; settled := Ok 1%Z |});
                   ("b", {| promise_id := 1; settled := Ok 2%Z |})]
    = Ok obj
    /\ obj !! "b" = Some (Some 2%Z) /\ obj !! "c" = None.
Proof.
  assert (Hnodup : NoDup ["a"; "b"]).
  { apply NoDup_cons. split; [|apply NoDup_singleton].
    intros Hin%list_elem_of_singleton. discriminate. }
  pose proof (promiseAllObj_same_keys
                [("a", {| promise_id := 0; settled := Ok 1%Z |});
                 ("b", {| promise_id := 1; settled := Ok 2%Z |})] Hnodup)
    as Hobj.
  destruct (promiseAllObj _) as [obj| |] eqn:Hrun in Hobj;
    [|exfalso; discriminate Hrun..].
  destruct Hobj as [Hsome Hnone].
  exists obj. split; [exact Hrun|]. split.
  - destruct (Hsome "b" {| promise_id := 1; settled := Ok 2%Z |} eq_refl)
      as (a & Ha & Hb).
    injection Ha as <-. exact Hb.
  - exact (Hnone "c" eq_refl).
Defined.
